(** * Transaction selection for the sequencer (package [txselector])

    A shallow embedding of [sequencer/strategy/txselector/txselector.go]:
    the pass-through selector [AcceptAll], the policy-driven selector
    [Base], its constructor [NewTxSelectorBase], and the
    properties of the admission loop of [Base.SelectTxs]. *)

From stdpp Require Import base option list strings gmap.

Set Default Proof Using "Type".

(** ** Go values used by the package *)

(** A Go slice.  The nil slice and an empty slice made by [make] are
    different values of the same length, so both are kept. *)
Definition slice (A : Type) : Type := option (list A).

Definition elems {A} (s : slice A) : list A := default [] s.

(** [len(s)] *)
Definition len {A} (s : slice A) : nat := length (elems s).

(** [make([]A, 0, n)]: never nil, whatever the capacity. *)
Definition make {A} (capacity : nat) : slice A := Some [].

(** [append(s, x)]: the result is never nil. *)
Definition append {A} (s : slice A) (x : A) : slice A := Some (elems s ++ [x]).

(** A Go [error] value, as far as the selector can tell values apart: the
    text returned by [Error()], the error it unwraps to, and the identity of
    the value.  [errors.New] returns a pointer, and two pointers are equal
    only when they are the same allocation; [ptr] is that allocation.
    Error types that bring an [Is] method of their own are left out. *)
Inductive error : Type :=
  | errorString (ptr : positive) (s : string)
  | wrapError (ptr : positive) (msg : string) (err : error).

Global Instance error_eq_dec : EqDecision error.
Proof. solve_decision. Defined.

(** [err.Error()] *)
Definition Error (e : error) : string :=
  match e with
  | errorString _ s => s
  | wrapError _ msg _ => msg
  end.

(** [errors.Unwrap(err)] *)
Definition Unwrap (e : error) : option error :=
  match e with
  | errorString _ _ => None
  | wrapError _ _ inner => Some inner
  end.

(** [errors.Is(err, target)] for a non-nil [target]: walk the chain of
    [err], comparing each link with [target]. *)
Fixpoint errors_Is (err target : error) : bool :=
  if decide (err = target) then true
  else match err with
       | errorString _ _ => false
       | wrapError _ _ inner => errors_Is inner target
       end.

(** What a Go call does: it returns, or it panics. *)
Inductive outcome (A : Type) : Type :=
  | Returns (a : A)
  | Panics.
Arguments Returns {A} a.
Arguments Panics {A}.

(** ** Imported packages *)

(** go-ethereum: [common.Hash], [common.Address], [types.Transaction], with
    the methods [Transaction.Hash] and [common.Hash.Hex]. *)
Class Ethereum : Type := {
  common_Hash : Type;
  common_Address : Type;
  types_Transaction : Type;
  Hash : types_Transaction → common_Hash;
  Hex : common_Hash → string;
}.

(** Package [state]: the table [InvalidTxErrors] (a [map[string]bool]) and
    the two sentinels the selector compares against. *)
Class StatePkg : Type := {
  state_InvalidTxErrors : gmap string bool;
  state_ErrNonceIsBiggerThanAccountNonce : error;
  state_ErrInvalidCumulativeGas : error;
}.

(** Modelled from the spec: the processing result, "a success flag plus, on
    failure, an error value", read through [Failed()] and the field [Err].
    Nothing in the selector ties the two together, so neither does the
    record. *)
Record ExecutionResult : Type := {
  Err : option error;
  Failed : bool;
}.

Section Model.
Context `{Ethereum} `{StatePkg}.

(** Modelled from the spec: [pool.Transaction], "a transaction plus pool
    metadata".  The transaction is an embedded field; [Meta] is the type
    of the rest. *)
Record pool_Transaction {Meta : Type} : Type := {
  Transaction : types_Transaction;
  meta : Meta;
}.
Global Arguments pool_Transaction : clear implicits.

(** [tx.Hash().Hex()] *)
Definition hashHex (t : types_Transaction) : string := Hex (Hash t).

(** [state.InvalidTxErrors[key]]: a missing key reads as [false]. *)
Definition InvalidTxErrors_at (key : string) : bool :=
  default false (state_InvalidTxErrors !! key).

(** *** The batch processor *)

(** Modelled from the spec: the interface [batchProcessor], with the one
    method [ProcessTransaction(tx, proposerAddress) -> Result].  An
    implementation keeps its batch state in [St]; a call reads the
    transaction and the sequencer address and leaves a new state behind. *)
Class batchProcessor (St : Type) : Type :=
  ProcessTransaction : St → types_Transaction → common_Address → ExecutionResult * St.

(** The processor as the selector holds it: its current state and the
    calls made on it so far, oldest first. *)
Record processor (St : Type) : Type := {
  bp_state : St;
  bp_calls : list (types_Transaction * common_Address);
}.
Global Arguments bp_state {St} _.
Global Arguments bp_calls {St} _.

(** [batchProcessor.ProcessTransaction(&t, sequencerAddress)] *)
Definition call {St} {BP : batchProcessor St} (p : processor St)
    (t : types_Transaction) (a : common_Address) : ExecutionResult * processor St :=
  let '(result, s) := ProcessTransaction (bp_state p) t a in
  (result, {| bp_state := s; bp_calls := bp_calls p ++ [(t, a)] |}).

(** *** Results *)

(** The four values [SelectTxs] returns.  [selectedTxs] is a slice of
    pointers in the source; every pointer is to the variable [t] of one
    iteration, which nothing writes to afterwards, so the slice is kept as
    the transactions pointed to. *)
Record selection : Type := {
  selectedTxs : slice types_Transaction;
  selectedTxsHashes : slice string;
  invalidTxsHashes : slice string;
  err : option error;
}.

(** The three slices a loop of [SelectTxs] builds. *)
Record locals : Type := {
  l_selectedTxs : slice types_Transaction;
  l_selectedTxsHashes : slice string;
  l_invalidTxsHashes : slice string;
}.

(** [return selectedTxs, selectedTxsHashes, invalidTxsHashes, nil] *)
Definition return_locals (l : locals) : selection :=
  {| selectedTxs := l_selectedTxs l;
     selectedTxsHashes := l_selectedTxsHashes l;
     invalidTxsHashes := l_invalidTxsHashes l;
     err := None |}.

(** [return nil, nil, nil, err] *)
Definition return_error (e : error) : selection :=
  {| selectedTxs := None;
     selectedTxsHashes := None;
     invalidTxsHashes := None;
     err := Some e |}.

(** *** AcceptAll *)

Section AcceptAll.
Context {Meta : Type}.

(** The loop of [AcceptAll.SelectTxs]. *)
Fixpoint AcceptAll_range (selectedTxs : slice types_Transaction)
    (selectedTxsHashes : slice string)
    (pendingTxs : list (pool_Transaction Meta))
    : slice types_Transaction * slice string :=
  match pendingTxs with
  | [] => (selectedTxs, selectedTxsHashes)
  | tx :: rest =>
      let t := Transaction tx in
      AcceptAll_range (append selectedTxs t)
                      (append selectedTxsHashes (hashHex (Transaction tx)))
                      rest
  end.

(** [AcceptAll.SelectTxs] *)
Definition AcceptAll_SelectTxs {St} (p : processor St)
    (pendingTxs : list (pool_Transaction Meta)) (sequencerAddress : common_Address)
    : outcome (selection * processor St) :=
  let '(selectedTxs, selectedTxsHashes) :=
    AcceptAll_range (make (length pendingTxs)) (make (length pendingTxs)) pendingTxs in
  Returns ({| selectedTxs := selectedTxs;
              selectedTxsHashes := selectedTxsHashes;
              invalidTxsHashes := None;
              err := None |}, p).
End AcceptAll.

(** *** Base *)

Section Base.
Context {Meta : Type}.

(** Modelled from the spec: the interface [TxSorter], with the one method
    [SortTxs(pending) -> ordered sequence], a function of the pending list.
    A value of the interface is that method, or nil. *)
Definition TxSorter : Type :=
  option (list (pool_Transaction Meta) → list (pool_Transaction Meta)).

Record Base : Type := { Base_TxSorter : TxSorter }.

(** Where one iteration of the loop of [Base.SelectTxs] leaves the
    function: at the next iteration, at a [return], or in a panic. *)
Inductive flow (St : Type) : Type :=
  | Next (l : locals) (p : processor St)
  | Return (out : selection) (p : processor St)
  | Panic.
Global Arguments Next {St} l p.
Global Arguments Return {St} out p.
Global Arguments Panic {St}.

Context {St : Type} {BP : batchProcessor St}.

(** The body of the loop. *)
Definition Base_body (sequencerAddress : common_Address)
    (l : locals) (p : processor St) (tx : pool_Transaction Meta) : flow St :=
  let t := Transaction tx in
  let '(result, p) := call p t sequencerAddress in
  if Failed result then
    match Err result with
    | None => Panic
    | Some err =>
        if InvalidTxErrors_at (Error err) then
          Next {| l_selectedTxs := l_selectedTxs l;
                  l_selectedTxsHashes := l_selectedTxsHashes l;
                  l_invalidTxsHashes :=
                    append (l_invalidTxsHashes l) (hashHex (Transaction tx)) |} p
        else if errors_Is err state_ErrNonceIsBiggerThanAccountNonce then
          Next l p
        else if errors_Is err state_ErrInvalidCumulativeGas then
          Return (return_locals l) p
        else
          Return (return_error err) p
    end
  else
    Next {| l_selectedTxs := append (l_selectedTxs l) t;
            l_selectedTxsHashes := append (l_selectedTxsHashes l) (hashHex t);
            l_invalidTxsHashes := l_invalidTxsHashes l |} p.

(** [for _, tx := range sortedTxs { ... }] *)
Fixpoint Base_range (sequencerAddress : common_Address)
    (l : locals) (p : processor St) (sortedTxs : list (pool_Transaction Meta))
    : flow St :=
  match sortedTxs with
  | [] => Next l p
  | tx :: rest =>
      match Base_body sequencerAddress l p tx with
      | Next l p => Base_range sequencerAddress l p rest
      | stop => stop
      end
  end.

(** The three slices as declared by [var], all nil. *)
Definition no_locals : locals :=
  {| l_selectedTxs := None; l_selectedTxsHashes := None; l_invalidTxsHashes := None |}.

(** The end of [Base.SelectTxs]: the [return] after the loop, or the one
    taken inside it. *)
Definition Base_finish (f : flow St) : outcome (selection * processor St) :=
  match f with
  | Next l p => Returns (return_locals l, p)
  | Return out p => Returns (out, p)
  | Panic => Panics
  end.

(** [Base.SelectTxs].  Calling [SortTxs] on a nil [TxSorter] panics. *)
Definition Base_SelectTxs (b : Base) (p : processor St)
    (pendingTxs : list (pool_Transaction Meta)) (sequencerAddress : common_Address)
    : outcome (selection * processor St) :=
  match Base_TxSorter b with
  | None => Panics
  | Some SortTxs =>
      let sortedTxs := SortTxs pendingTxs in
      Base_finish (Base_range sequencerAddress no_locals p sortedTxs)
  end.
End Base.
Global Arguments TxSorter : clear implicits.
Global Arguments Base : clear implicits.
Global Arguments flow : clear implicits.

(** *** The interface [TxSelector] *)

Section TxSelector.
Context {Meta : Type}.

(** The two implementations of [TxSelector] in the package. *)
Inductive TxSelector : Type :=
  | TxSelector_AcceptAll
  | TxSelector_Base (b : Base Meta).

(** [NewTxSelectorAcceptAll] *)
Definition NewTxSelectorAcceptAll : TxSelector := TxSelector_AcceptAll.

(** A call of [SelectTxs] through the interface. *)
Definition SelectTxs {St} {BP : batchProcessor St} (s : TxSelector) (p : processor St)
    (pendingTxs : list (pool_Transaction Meta)) (sequencerAddress : common_Address)
    : outcome (selection * processor St) :=
  match s with
  | TxSelector_AcceptAll => AcceptAll_SelectTxs p pendingTxs sequencerAddress
  | TxSelector_Base b => Base_SelectTxs b p pendingTxs sequencerAddress
  end.
End TxSelector.
Global Arguments TxSelector : clear implicits.

(** *** Construction *)

(** The declarations of the package that [NewTxSelectorBase] reads, taken
    as they come: the type [TxSorterType] with its two named values, and
    the method [SortTxs] of the two sorters. *)
Class SorterPkg (Meta : Type) : Type := {
  TxSorterType : Type;
  TxSorterType_eq_dec :: EqDecision TxSorterType;
  ByCostAndTime : TxSorterType;
  ByCostAndNonce : TxSorterType;
  TxSorterByCostAndTime_SortTxs : list (pool_Transaction Meta) → list (pool_Transaction Meta);
  TxSorterByCostAndNonce_SortTxs : list (pool_Transaction Meta) → list (pool_Transaction Meta);
}.

Record Config {Meta} {SP : SorterPkg Meta} : Type := { cfg_TxSorterType : TxSorterType }.

(** [NewTxSelectorBase]: the [switch] has no [default], so [sorter] keeps
    its zero value, nil, for any other [cfg.TxSorterType]. *)
Definition NewTxSelectorBase {Meta} {SP : SorterPkg Meta} (cfg : Config)
    : TxSelector Meta :=
  let sorter : TxSorter Meta :=
    if decide (cfg_TxSorterType cfg = ByCostAndTime) then
      Some TxSorterByCostAndTime_SortTxs
    else if decide (cfg_TxSorterType cfg = ByCostAndNonce) then
      Some TxSorterByCostAndNonce_SortTxs
    else None in
  TxSelector_Base {| Base_TxSorter := sorter |}.
End Model.

(** *** Words for the statements *)

Section Sequences.
Context `{Ethereum} {Meta : Type}.

(** The hashes of a sequence of pending transactions, in its order. *)
Definition hashes (txs : list (pool_Transaction Meta)) : list string :=
  map (λ tx, hashHex (Transaction tx)) txs.

(** The calls that processing [txs] in order makes on the processor. *)
Definition calls_for (sequencerAddress : common_Address)
    (txs : list (pool_Transaction Meta)) : list (types_Transaction * common_Address) :=
  map (λ tx, (Transaction tx, sequencerAddress)) txs.
End Sequences.

Section Vocabulary.
Context `{Ethereum} `{StatePkg} {Meta St : Type} {BP : batchProcessor St}.
Implicit Types (l : locals) (p : processor St) (tx : pool_Transaction Meta).
Implicit Types (a : common_Address).

(** The processor after one more call that left it in state [s]. *)
Definition after_call p tx a (s : St) : processor St :=
  {| bp_state := s; bp_calls := bp_calls p ++ calls_for a [tx] |}.

(** What an iteration can do, whatever the processor answers. *)
Inductive body_spec a l p tx : flow St → Prop :=
  | body_selects s :
      body_spec a l p tx
        (Next {| l_selectedTxs := append (l_selectedTxs l) (Transaction tx);
                 l_selectedTxsHashes :=
                   append (l_selectedTxsHashes l) (hashHex (Transaction tx));
                 l_invalidTxsHashes := l_invalidTxsHashes l |}
              (after_call p tx a s))
  | body_rejects s :
      body_spec a l p tx
        (Next {| l_selectedTxs := l_selectedTxs l;
                 l_selectedTxsHashes := l_selectedTxsHashes l;
                 l_invalidTxsHashes :=
                   append (l_invalidTxsHashes l) (hashHex (Transaction tx)) |}
              (after_call p tx a s))
  | body_skips s : body_spec a l p tx (Next l (after_call p tx a s))
  | body_stops s : body_spec a l p tx (Return (return_locals l) (after_call p tx a s))
  | body_aborts s e : body_spec a l p tx (Return (return_error e) (after_call p tx a s))
  | body_panics : body_spec a l p tx Panic.

(** [l'] is [l] after the loop has gone through [txs]: some of [txs], in
    their order, were added to the selected slices, some to the invalid
    hashes, and nothing else changed. *)
Definition grows (txs : list (pool_Transaction Meta)) l l' : Prop :=
  ∃ sel inv : list (pool_Transaction Meta),
    sublist sel txs ∧ sublist inv txs
    ∧ elems (l_selectedTxs l') = elems (l_selectedTxs l) ++ map Transaction sel
    ∧ elems (l_selectedTxsHashes l') = elems (l_selectedTxsHashes l) ++ hashes sel
    ∧ elems (l_invalidTxsHashes l') = elems (l_invalidTxsHashes l) ++ hashes inv.

(** Hashes and transactions are added to the selected slices together. *)
Definition aligned l : Prop :=
  elems (l_selectedTxsHashes l) = map hashHex (elems (l_selectedTxs l)).

(** The hashes in the two slices come from the transactions gone through,
    in their order; if those have different hashes, no hash is in both. *)
Definition ordered_apart (seen : list (pool_Transaction Meta)) l : Prop :=
  sublist (elems (l_selectedTxsHashes l)) (hashes seen)
  ∧ sublist (elems (l_invalidTxsHashes l)) (hashes seen)
  ∧ (NoDup (hashes seen) →
     ∀ h, h ∈ elems (l_selectedTxsHashes l) → h ∉ elems (l_invalidTxsHashes l)).
End Vocabulary.

(** ** A small instance

    Transactions that are just names, a table of invalid-transaction errors,
    and a processor that remembers what it has applied.  The examples below
    run the selectors on it. *)
Module Demo.
#[local] Instance ethereum : Ethereum := {|
  common_Hash := string;
  common_Address := string;
  types_Transaction := string;
  Hash := λ t, t;
  Hex := λ h, String.append "0x" h;
|}.

Definition ErrInvalidSig : error := errorString 1 "invalid transaction v, r, s values".
Definition ErrNonceIsSmallerThanAccountNonce : error :=
  errorString 2 "transaction nonce is smaller than account nonce".
Definition ErrInvalidGas : error := errorString 3 "not enough gas".
Definition ErrNonceIsBiggerThanAccountNonce : error :=
  errorString 4 "transaction nonce is bigger than account nonce".
Definition ErrInvalidCumulativeGas : error :=
  errorString 5 "cumulative gas is bigger than allowed".

#[local] Instance state : StatePkg := {|
  state_InvalidTxErrors :=
    <[Error ErrInvalidSig := true]>
      (<[Error ErrNonceIsSmallerThanAccountNonce := true]>
        (<[Error ErrInvalidGas := true]> ∅));
  state_ErrNonceIsBiggerThanAccountNonce := ErrNonceIsBiggerThanAccountNonce;
  state_ErrInvalidCumulativeGas := ErrInvalidCumulativeGas;
|}.

(** An error of the processor's own, unknown to the selector. *)
Definition ErrDatabase : error := errorString 6 "connection refused".

(** A custom error that reads as "not enough gas" and unwraps to the
    cumulative-gas sentinel. *)
Definition ErrGasBoth : error := wrapError 7 "not enough gas" ErrInvalidCumulativeGas.

(** The invalid-signature error with some context in front of it. *)
Definition ErrSigContext : error :=
  wrapError 8 "tx B: invalid transaction v, r, s values" ErrInvalidSig.

Definition failed (e : error) : ExecutionResult := {| Err := Some e; Failed := true |}.
Definition succeeded : ExecutionResult := {| Err := None; Failed := false |}.

(** What the processor answers for a transaction name, on a batch that
    does not hold the transaction yet. *)
Definition verdict (t : string) : ExecutionResult :=
  if decide (t = "B") then failed ErrInvalidSig
  else if decide (t = "C") then failed ErrNonceIsBiggerThanAccountNonce
  else if decide (t = "D") then failed ErrInvalidCumulativeGas
  else if decide (t = "E") then failed ErrDatabase
  else if decide (t = "F") then failed ErrGasBoth
  else if decide (t = "G") then failed ErrSigContext
  else succeeded.

(** A processor whose state is the list of transactions applied to the
    batch.  A transaction already in the batch has used up its nonce. *)
#[local] Instance batch : batchProcessor (list string) :=
  λ applied t _,
    if decide (t ∈ applied) then (failed ErrNonceIsSmallerThanAccountNonce, applied)
    else let r := verdict t in
         (r, if Failed r then applied else applied ++ [t]).

(** A processor without state: the answer depends on the transaction
    only. *)
#[local] Instance oracle : batchProcessor unit := λ s t _, (verdict t, s).

Definition fresh {St} (s : St) : processor St := {| bp_state := s; bp_calls := [] |}.

(** Pending transactions carry their arrival number. *)
Definition pending (t : string) (arrival : nat) : pool_Transaction nat :=
  {| Transaction := t; meta := arrival |}.

Definition A := pending "A" 0.
Definition B := pending "B" 1.
Definition C := pending "C" 2.
Definition D := pending "D" 3.
Definition E := pending "E" 4.
Definition F := pending "F" 5.
Definition G := pending "G" 6.

(** Sorter types are strings; the zero value of a [Config] has the empty
    one.  Both sorters of the instance keep the order of arrival. *)
#[local] Instance sorters : SorterPkg nat := {|
  TxSorterType := string;
  ByCostAndTime := "bycostandtime";
  ByCostAndNonce := "bycostandnonce";
  TxSorterByCostAndTime_SortTxs := λ txs, txs;
  TxSorterByCostAndNonce_SortTxs := λ txs, txs;
|}.

(** The three slices and the processor, written out. *)
Definition built (sel : slice string) (hs inv : slice string) : locals :=
  {| l_selectedTxs := sel; l_selectedTxsHashes := hs; l_invalidTxsHashes := inv |}.
Definition returned (sel : slice string) (hs inv : slice string) : selection :=
  {| selectedTxs := sel; selectedTxsHashes := hs; invalidTxsHashes := inv; err := None |}.
Definition called {St} (s : St) (calls : list (string * string)) : processor St :=
  {| bp_state := s; bp_calls := calls |}.

Definition byTime : TxSelector nat :=
  NewTxSelectorBase {| cfg_TxSorterType := "bycostandtime" |}.
Definition unset : TxSelector nat :=
  NewTxSelectorBase {| cfg_TxSorterType := EmptyString |}.

(** The [Base] behind [byTime]. *)
Definition byTimeBase : Base nat :=
  {| Base_TxSorter := Some TxSorterByCostAndTime_SortTxs |}.
End Demo.

(** A processor that reports failures without saying why. *)
Module Faulty.
#[local] Instance silent `{Ethereum} : batchProcessor unit :=
  λ s _ _, ({| Err := None; Failed := true |}, s).

(** One that does so for the transaction named B only, and applies the
    others. *)
#[local] Instance silent_on_B : @batchProcessor Demo.ethereum unit :=
  λ s t _, ({| Err := None; Failed := bool_decide (t = "B") |}, s).
End Faulty.


(** ** Properties of the selectors *)

Section Slices.
Context {A : Type}.

Lemma elems_append (s : slice A) (x : A) : elems (append s x) = elems s ++ [x].
Proof. reflexivity. Qed.

Lemma len_append (s : slice A) (x : A) : len (append s x) = S (len s).
Proof. unfold len. rewrite elems_append, length_app. simpl. lia. Qed.

Lemma append_not_nil (s : slice A) (x : A) : append s x ≠ None.
Proof. discriminate. Qed.
End Slices.

Section Errors.
(** An error is itself. *)
Lemma errors_Is_refl (e : error) : errors_Is e e = true.
Proof. destruct e; simpl; case_decide; congruence. Qed.

(** [errors.Is] looks through a wrapper. *)
Lemma errors_Is_wrap (ptr : positive) (msg : string) (e target : error) :
  errors_Is e target = true → errors_Is (wrapError ptr msg e) target = true.
Proof. intros He. simpl. case_decide; [reflexivity | exact He]. Qed.

(** A wrapper that is not the target itself is the target exactly when
    what it wraps is. *)
Lemma errors_Is_wrap_ne (ptr : positive) (msg : string) (e target : error) :
  wrapError ptr msg e ≠ target →
  errors_Is (wrapError ptr msg e) target = errors_Is e target.
Proof. intros Hne. simpl. case_decide; [contradiction | reflexivity]. Qed.
End Errors.

Section Loop.
Context `{Ethereum} `{StatePkg} {Meta St : Type} {BP : batchProcessor St}.
Implicit Types (l : locals) (p : processor St) (tx : pool_Transaction Meta).
Implicit Types (txs pre post : list (pool_Transaction Meta)).
Implicit Types (a : common_Address) (e : error) (result : ExecutionResult).

Lemma call_eq p tx a result s :
  ProcessTransaction (bp_state p) (Transaction tx) a = (result, s) →
  call p (Transaction tx) a = (result, after_call p tx a s).
Proof. intros Hp. unfold call. rewrite Hp. reflexivity. Qed.

(** *** One iteration, branch by branch *)

Lemma Base_body_success a l p tx result s :
  ProcessTransaction (bp_state p) (Transaction tx) a = (result, s) →
  Failed result = false →
  Base_body a l p tx =
    Next {| l_selectedTxs := append (l_selectedTxs l) (Transaction tx);
            l_selectedTxsHashes := append (l_selectedTxsHashes l) (hashHex (Transaction tx));
            l_invalidTxsHashes := l_invalidTxsHashes l |}
         (after_call p tx a s).
Proof.
  intros Hp Hf. unfold Base_body. rewrite (call_eq _ _ _ _ _ Hp), Hf. reflexivity.
Qed.

Lemma Base_body_invalid a l p tx result s e :
  ProcessTransaction (bp_state p) (Transaction tx) a = (result, s) →
  Failed result = true → Err result = Some e →
  InvalidTxErrors_at (Error e) = true →
  Base_body a l p tx =
    Next {| l_selectedTxs := l_selectedTxs l;
            l_selectedTxsHashes := l_selectedTxsHashes l;
            l_invalidTxsHashes := append (l_invalidTxsHashes l) (hashHex (Transaction tx)) |}
         (after_call p tx a s).
Proof.
  intros Hp Hf He Hin. unfold Base_body.
  rewrite (call_eq _ _ _ _ _ Hp), Hf, He, Hin. reflexivity.
Qed.

Lemma Base_body_nonce a l p tx result s e :
  ProcessTransaction (bp_state p) (Transaction tx) a = (result, s) →
  Failed result = true → Err result = Some e →
  InvalidTxErrors_at (Error e) = false →
  errors_Is e state_ErrNonceIsBiggerThanAccountNonce = true →
  Base_body a l p tx = Next l (after_call p tx a s).
Proof.
  intros Hp Hf He Hin Hn. unfold Base_body.
  rewrite (call_eq _ _ _ _ _ Hp), Hf, He, Hin, Hn. reflexivity.
Qed.

Lemma Base_body_gas a l p tx result s e :
  ProcessTransaction (bp_state p) (Transaction tx) a = (result, s) →
  Failed result = true → Err result = Some e →
  InvalidTxErrors_at (Error e) = false →
  errors_Is e state_ErrNonceIsBiggerThanAccountNonce = false →
  errors_Is e state_ErrInvalidCumulativeGas = true →
  Base_body a l p tx = Return (return_locals l) (after_call p tx a s).
Proof.
  intros Hp Hf He Hin Hn Hg. unfold Base_body.
  rewrite (call_eq _ _ _ _ _ Hp), Hf, He, Hin, Hn, Hg. reflexivity.
Qed.

Lemma Base_body_fatal a l p tx result s e :
  ProcessTransaction (bp_state p) (Transaction tx) a = (result, s) →
  Failed result = true → Err result = Some e →
  InvalidTxErrors_at (Error e) = false →
  errors_Is e state_ErrNonceIsBiggerThanAccountNonce = false →
  errors_Is e state_ErrInvalidCumulativeGas = false →
  Base_body a l p tx = Return (return_error e) (after_call p tx a s).
Proof.
  intros Hp Hf He Hin Hn Hg. unfold Base_body.
  rewrite (call_eq _ _ _ _ _ Hp), Hf, He, Hin, Hn, Hg. reflexivity.
Qed.

Lemma Base_body_cases a l p tx : body_spec a l p tx (Base_body a l p tx).
Proof.
  unfold Base_body.
  destruct (ProcessTransaction (bp_state p) (Transaction tx) a) as [result s] eqn:Hp.
  rewrite (call_eq _ _ _ _ _ Hp).
  destruct (Failed result); [| apply body_selects].
  destruct (Err result) as [e|]; [| apply body_panics].
  destruct (InvalidTxErrors_at (Error e)); [apply body_rejects |].
  destruct (errors_Is e state_ErrNonceIsBiggerThanAccountNonce); [apply body_skips |].
  destruct (errors_Is e state_ErrInvalidCumulativeGas);
    [apply body_stops | apply body_aborts].
Qed.

(** *** The loop over a sequence in two parts *)

Lemma Base_range_app a l p pre post :
  Base_range a l p (pre ++ post) =
    match Base_range a l p pre with
    | Next l' p' => Base_range a l' p' post
    | stop => stop
    end.
Proof.
  revert l p. induction pre as [|tx pre IH]; intros l p; simpl.
  - reflexivity.
  - destruct (Base_body a l p tx) as [l' p'| |]; [apply IH | reflexivity | reflexivity].
Qed.

Lemma Base_range_reaches a l p pre tx post l' p' :
  Base_range a l p pre = Next l' p' →
  Base_range a l p (pre ++ tx :: post) =
    match Base_body a l' p' tx with
    | Next l'' p'' => Base_range a l'' p'' post
    | stop => stop
    end.
Proof. intros Hpre. rewrite Base_range_app, Hpre. reflexivity. Qed.

(** A loop that runs to the end of [txs] has called the processor once
    for each of them, in order. *)
Lemma Base_range_calls a l p txs l' p' :
  Base_range a l p txs = Next l' p' →
  bp_calls p' = bp_calls p ++ calls_for a txs.
Proof.
  revert l p. induction txs as [|tx txs IH]; intros l p; simpl.
  - intros [= _ <-]. by rewrite app_nil_r.
  - destruct (Base_body_cases a l p tx); try discriminate;
      intros Hrest; apply IH in Hrest; rewrite Hrest; simpl;
      by rewrite <- app_assoc.
Qed.

(** *** The slices only grow, by transactions of the sequence *)

Lemma grows_refl txs l : grows txs l l.
Proof.
  exists [], []. repeat split; try apply sublist_nil_l; simpl; by rewrite app_nil_r.
Qed.

Lemma grows_app pre post l l' l'' :
  grows pre l l' → grows post l' l'' → grows (pre ++ post) l l''.
Proof.
  intros (sel1 & inv1 & Hs1 & Hi1 & E1 & E2 & E3) (sel2 & inv2 & Hs2 & Hi2 & F1 & F2 & F3).
  exists (sel1 ++ sel2), (inv1 ++ inv2). unfold hashes in *.
  rewrite F1, F2, F3, E1, E2, E3, !map_app, <- !app_assoc.
  repeat split; by apply sublist_app.
Qed.

Lemma Base_body_grows a l p tx l' p' :
  Base_body a l p tx = Next l' p' → grows [tx] l l'.
Proof.
  intros Hb. destruct (Base_body_cases a l p tx); inversion Hb; subst.
  - exists [tx], []. simpl. rewrite app_nil_r. repeat split; try done. apply sublist_nil_l.
  - exists [], [tx]. simpl. rewrite !app_nil_r. repeat split; try done. apply sublist_nil_l.
  - apply grows_refl.
Qed.

Lemma Base_body_return a l p tx out p' :
  Base_body a l p tx = Return out p' →
  out = return_locals l ∨ ∃ e, out = return_error e.
Proof.
  intros Hb. destruct (Base_body_cases a l p tx); inversion Hb; subst; eauto.
Qed.

Lemma Base_range_grows a txs l p :
  match Base_range a l p txs with
  | Next l' _ => grows txs l l'
  | Return out _ =>
      (∃ l', out = return_locals l' ∧ grows txs l l') ∨ (∃ e, out = return_error e)
  | Panic => True
  end.
Proof.
  revert l p. induction txs as [|tx txs IH]; intros l p; simpl.
  - apply grows_refl.
  - destruct (Base_body a l p tx) as [l1 p1|out p1|] eqn:Hb; [| |done].
    + apply Base_body_grows in Hb. specialize (IH l1 p1).
      destruct (Base_range a l1 p1 txs) as [l2 p2|out p2|]; [| |done].
      * apply (grows_app [tx] txs _ _ _ Hb IH).
      * destruct IH as [(l2 & -> & Hg)|[e ->]]; [left|right; eauto].
        exists l2. split; [done|]. apply (grows_app [tx] txs _ _ _ Hb Hg).
    + apply Base_body_return in Hb as [->|[e ->]]; [left|right; eauto].
      exists l. split; [done|]. exists [], [].
      repeat split; try apply sublist_nil_l; simpl; by rewrite app_nil_r.
Qed.

(** The same for a whole call that returns without error. *)
Lemma Base_finish_grows a txs l p out p' :
  Base_finish (Base_range a l p txs) = Returns (out, p') →
  err out = None →
  ∃ l', out = return_locals l' ∧ grows txs l l'.
Proof.
  intros Hfin Herr. pose proof (Base_range_grows a txs l p) as Hg.
  destruct (Base_range a l p txs) as [l' p1|out1 p1|]; simpl in Hfin.
  - inversion Hfin; subst. eauto.
  - inversion Hfin; subst. destruct Hg as [Hg|[e ->]]; [done | discriminate].
  - discriminate.
Qed.
End Loop.

(** *** The four ways a failed transaction is handled *)

Section Classification.
Context `{Ethereum} `{StatePkg} {Meta St : Type} {BP : batchProcessor St}.
Implicit Types (b : Base Meta) (l : locals) (p pk : processor St).
Implicit Types (tx : pool_Transaction Meta).
Implicit Types (pendingTxs pre post : list (pool_Transaction Meta)).
Implicit Types (a : common_Address) (e : error) (result : ExecutionResult).

Lemma Base_SelectTxs_reaches b SortTxs p pendingTxs a pre tx post l pk :
  Base_TxSorter b = Some SortTxs →
  SortTxs pendingTxs = pre ++ tx :: post →
  Base_range a no_locals p pre = Next l pk →
  Base_SelectTxs b p pendingTxs a =
    Base_finish match Base_body a l pk tx with
                | Next l' p' => Base_range a l' p' post
                | stop => stop
                end
  ∧ bp_calls pk = bp_calls p ++ calls_for a pre.
Proof.
  intros Hb Hsort Hpre. split.
  - unfold Base_SelectTxs. rewrite Hb, Hsort.
    by rewrite (Base_range_reaches _ _ _ _ _ _ _ _ Hpre).
  - by apply Base_range_calls in Hpre.
Qed.

Lemma after_call_calls p pk tx a pre (s : St) :
  bp_calls pk = bp_calls p ++ calls_for a pre →
  after_call pk tx a s =
    {| bp_state := s; bp_calls := bp_calls p ++ calls_for a (pre ++ [tx]) |}.
Proof.
  intros Hc. unfold after_call, calls_for. rewrite Hc, map_app, app_assoc. reflexivity.
Qed.

(** C1.  Let the loop of [Base.SelectTxs] reach the transaction [tx] at
    position [k = length pre] of the sorted sequence, with the slices [l]
    built from the positions before it.  If the processor's result for
    [tx] fails with the cumulative-gas error (the third test of the loop
    is the one that succeeds), the call returns exactly the three slices
    of [l] and a nil error, and the processor has been called for the
    positions up to [k] and for no position after it. *)
Theorem Base_SelectTxs_cumulative_gas_stops
    b SortTxs p pendingTxs a pre tx post l pk result (s : St) e :
  Base_TxSorter b = Some SortTxs →
  SortTxs pendingTxs = pre ++ tx :: post →
  Base_range a no_locals p pre = Next l pk →
  ProcessTransaction (bp_state pk) (Transaction tx) a = (result, s) →
  Failed result = true →
  Err result = Some e →
  InvalidTxErrors_at (Error e) = false →
  errors_Is e state_ErrNonceIsBiggerThanAccountNonce = false →
  errors_Is e state_ErrInvalidCumulativeGas = true →
  Base_SelectTxs b p pendingTxs a =
    Returns ({| selectedTxs := l_selectedTxs l;
                selectedTxsHashes := l_selectedTxsHashes l;
                invalidTxsHashes := l_invalidTxsHashes l;
                err := None |},
             {| bp_state := s;
                bp_calls := bp_calls p ++ calls_for a (pre ++ [tx]) |}).
Proof.
  intros Hb Hsort Hpre Hp Hf He Hin Hn Hg.
  destruct (Base_SelectTxs_reaches _ _ _ _ _ _ _ _ _ _ Hb Hsort Hpre) as [-> Hc].
  rewrite (Base_body_gas _ _ _ _ _ _ _ Hp Hf He Hin Hn Hg). simpl.
  by rewrite (after_call_calls _ _ _ _ _ _ Hc).
Qed.

(** C2.  Let the loop of [Base.SelectTxs] reach the transaction [tx].  If
    its processing fails with an error [e] that is not in the set of
    invalid-transaction errors and is neither the nonce-ahead nor the
    cumulative-gas sentinel, the call returns [(nil, nil, nil, e)]:
    whatever [l] held is dropped. *)
Theorem Base_SelectTxs_unknown_error_aborts
    b SortTxs p pendingTxs a pre tx post l pk result (s : St) e :
  Base_TxSorter b = Some SortTxs →
  SortTxs pendingTxs = pre ++ tx :: post →
  Base_range a no_locals p pre = Next l pk →
  ProcessTransaction (bp_state pk) (Transaction tx) a = (result, s) →
  Failed result = true →
  Err result = Some e →
  InvalidTxErrors_at (Error e) = false →
  errors_Is e state_ErrNonceIsBiggerThanAccountNonce = false →
  errors_Is e state_ErrInvalidCumulativeGas = false →
  Base_SelectTxs b p pendingTxs a =
    Returns ({| selectedTxs := None;
                selectedTxsHashes := None;
                invalidTxsHashes := None;
                err := Some e |},
             {| bp_state := s;
                bp_calls := bp_calls p ++ calls_for a (pre ++ [tx]) |}).
Proof.
  intros Hb Hsort Hpre Hp Hf He Hin Hn Hg.
  destruct (Base_SelectTxs_reaches _ _ _ _ _ _ _ _ _ _ Hb Hsort Hpre) as [-> Hc].
  rewrite (Base_body_fatal _ _ _ _ _ _ _ Hp Hf He Hin Hn Hg). simpl.
  by rewrite (after_call_calls _ _ _ _ _ _ Hc).
Qed.

Lemma elem_of_map_sublist {A B} (f : A → B) (l1 l2 : list A) (y : B) :
  sublist l1 l2 → y ∈ map f l1 → y ∈ map f l2.
Proof.
  induction 1 as [|x l1 l2 _ IH|x l1 l2 _ IH]; simpl; intros Hy.
  - done.
  - apply elem_of_cons in Hy as [->|Hy]; [by left|right; by apply IH].
  - right. by apply IH.
Qed.

Lemma elem_of_map_hashHex (ts : list types_Transaction) (t : types_Transaction) :
  t ∈ ts → hashHex t ∈ map hashHex ts.
Proof.
  induction 1; simpl; [by left|by right].
Qed.

(** The hash of a transaction that is not among the hashes of [txs] is
    the hash of none of the transactions picked from [txs]. *)
Lemma not_elem_of_picked txs (sel : list (pool_Transaction Meta)) tx :
  sublist sel txs →
  hashHex (Transaction tx) ∉ hashes txs →
  (hashHex (Transaction tx) ∉ hashes sel) ∧ (Transaction tx ∉ map Transaction sel).
Proof.
  intros Hsub Hfresh.
  assert (hashHex (Transaction tx) ∉ hashes sel) as Hh.
  { intros Hin. apply Hfresh. by apply (elem_of_map_sublist _ _ _ _ Hsub). }
  split; [exact Hh|]. intros Hin. apply Hh.
  apply elem_of_map_hashHex in Hin. unfold hashes. by rewrite map_map in Hin.
Qed.

(** C3, as the code has it.  Let the loop of [Base.SelectTxs] reach the
    transaction [tx] with the slices [l].  If its processing fails with an
    error whose text is in the set of invalid-transaction errors, then
    after this iteration the selected transactions and selected hashes are
    those of [l], the invalid hashes are those of [l] followed by the hash
    of [tx], once, and the call goes on with the transactions after [tx].
    If the call then returns without error, its selected slices are those
    of [l] followed by transactions that come after [tx], and its invalid
    hashes are those of [l], the hash of [tx], and hashes of transactions
    that come after [tx].  If moreover the sorted transactions have
    pairwise different hashes, then whenever the call returns, [tx] is not
    among the selected transactions and its hash is not among the selected
    hashes, and when it returns without error, the hash of [tx] is in the
    invalid hashes exactly once. *)
Theorem Base_SelectTxs_invalid_recorded
    b SortTxs p pendingTxs a pre tx post l pk result (s : St) e :
  Base_TxSorter b = Some SortTxs →
  SortTxs pendingTxs = pre ++ tx :: post →
  Base_range a no_locals p pre = Next l pk →
  ProcessTransaction (bp_state pk) (Transaction tx) a = (result, s) →
  Failed result = true →
  Err result = Some e →
  InvalidTxErrors_at (Error e) = true →
  let l' := {| l_selectedTxs := l_selectedTxs l;
               l_selectedTxsHashes := l_selectedTxsHashes l;
               l_invalidTxsHashes :=
                 Some (elems (l_invalidTxsHashes l) ++ [hashHex (Transaction tx)]) |} in
  let pk' := {| bp_state := s;
                bp_calls := bp_calls p ++ calls_for a (pre ++ [tx]) |} in
  Base_range a no_locals p (pre ++ [tx]) = Next l' pk'
  ∧ Base_SelectTxs b p pendingTxs a = Base_finish (Base_range a l' pk' post)
  ∧ (∀ out p',
      Base_SelectTxs b p pendingTxs a = Returns (out, p') → err out = None →
      ∃ sel inv,
        sublist sel post ∧ sublist inv post
        ∧ elems (selectedTxs out) = elems (l_selectedTxs l) ++ map Transaction sel
        ∧ elems (selectedTxsHashes out) = elems (l_selectedTxsHashes l) ++ hashes sel
        ∧ elems (invalidTxsHashes out) =
            elems (l_invalidTxsHashes l) ++ hashHex (Transaction tx) :: hashes inv)
  ∧ (NoDup (hashes (SortTxs pendingTxs)) →
     ∀ out p',
       Base_SelectTxs b p pendingTxs a = Returns (out, p') →
       ((Transaction tx ∉ elems (selectedTxs out))
        ∧ (hashHex (Transaction tx) ∉ elems (selectedTxsHashes out))
        ∧ (err out = None →
          ∃ before after,
            elems (invalidTxsHashes out) = before ++ hashHex (Transaction tx) :: after
            ∧ (hashHex (Transaction tx) ∉ before)
            ∧ (hashHex (Transaction tx) ∉ after)))).
Proof.
  intros Hb Hsort Hpre Hp Hf He Hin l' pk'.
  destruct (Base_SelectTxs_reaches _ _ _ _ _ _ _ _ _ _ Hb Hsort Hpre) as [-> Hc].
  rewrite (Base_range_reaches _ _ _ _ _ [] _ _ Hpre).
  rewrite (Base_body_invalid _ _ _ _ _ _ _ Hp Hf He Hin).
  rewrite (after_call_calls _ _ _ _ _ _ Hc). fold l' pk'.
  split; [done|]. split; [done|]. split.
  - intros out p' Hout Herr.
    destruct (Base_finish_grows _ _ _ _ _ _ Hout Herr)
      as (lf & -> & sel & inv & Hs & Hi & E1 & E2 & E3).
    exists sel, inv. simpl in *. rewrite E1, E2, E3, <- app_assoc. done.
  - rewrite Hsort. unfold hashes at 1. rewrite map_app. simpl. fold (hashes pre) (hashes post).
    intros Hnd out p' Hout.
    apply NoDup_app in Hnd as (_ & Hnopre & Hnd).
    apply NoDup_cons in Hnd as [Hnopost _].
    assert (hashHex (Transaction tx) ∉ hashes pre) as Hpre_fresh.
    { intros Hin'. apply (Hnopre _ Hin'). by left. }
    pose proof (Base_range_grows a pre no_locals p) as Hgpre. rewrite Hpre in Hgpre.
    destruct Hgpre as (sel0 & inv0 & Hs0 & Hi0 & S1 & S2 & S3). simpl in S1, S2, S3.
    destruct (not_elem_of_picked _ _ _ Hs0 Hpre_fresh) as [Hsel0h Hsel0t].
    destruct (not_elem_of_picked _ _ _ Hi0 Hpre_fresh) as [Hinv0h _].
    match type of Hout with
    | Base_finish (Base_range _ ?l1 ?p1 _) = _ =>
        pose proof (Base_range_grows a post l1 p1) as Hg;
        destruct (Base_range a l1 p1 post) as [lf pf|o1 pf|]
    end; simpl in Hout; [| |done]; injection Hout as <- <-.
    + destruct Hg as (sel & inv & Hs & Hi & E1 & E2 & E3). simpl in *.
      destruct (not_elem_of_picked _ _ _ Hs Hnopost) as [Hselh Hselt].
      destruct (not_elem_of_picked _ _ _ Hi Hnopost) as [Hinvh _].
      rewrite E1, E2, E3, S1, S2, S3.
      split; [by intros [?|?]%elem_of_app|]. split; [by intros [?|?]%elem_of_app|].
      intros _. exists (hashes inv0), (hashes inv). by rewrite <- app_assoc.
    + destruct Hg as [(lf & -> & sel & inv & Hs & Hi & E1 & E2 & E3)|[e' ->]]; simpl in *.
      * destruct (not_elem_of_picked _ _ _ Hs Hnopost) as [Hselh Hselt].
        destruct (not_elem_of_picked _ _ _ Hi Hnopost) as [Hinvh _].
        rewrite E1, E2, E3, S1, S2, S3.
        split; [by intros [?|?]%elem_of_app|]. split; [by intros [?|?]%elem_of_app|].
        intros _. exists (hashes inv0), (hashes inv). by rewrite <- app_assoc.
      * split; [by intros ?%elem_of_nil|]. split; [by intros ?%elem_of_nil|]. done.
Qed.

(** C4.  Let the loop of [Base.SelectTxs] reach the transaction [tx] with
    the slices [l].  If its processing fails with the nonce-ahead error
    (the second test of the loop is the one that succeeds), then after
    this iteration the three slices are still those of [l], and the call
    goes on with the transactions after [tx].  If the call then returns
    without error, each slice it returns is the one of [l] followed by
    transactions, or hashes of transactions, that come after [tx]. *)
Theorem Base_SelectTxs_nonce_ahead_skipped
    b SortTxs p pendingTxs a pre tx post l pk result (s : St) e :
  Base_TxSorter b = Some SortTxs →
  SortTxs pendingTxs = pre ++ tx :: post →
  Base_range a no_locals p pre = Next l pk →
  ProcessTransaction (bp_state pk) (Transaction tx) a = (result, s) →
  Failed result = true →
  Err result = Some e →
  InvalidTxErrors_at (Error e) = false →
  errors_Is e state_ErrNonceIsBiggerThanAccountNonce = true →
  let pk' := {| bp_state := s;
                bp_calls := bp_calls p ++ calls_for a (pre ++ [tx]) |} in
  Base_range a no_locals p (pre ++ [tx]) = Next l pk'
  ∧ Base_SelectTxs b p pendingTxs a = Base_finish (Base_range a l pk' post)
  ∧ ∀ out p',
      Base_SelectTxs b p pendingTxs a = Returns (out, p') → err out = None →
      ∃ sel inv,
        sublist sel post ∧ sublist inv post
        ∧ elems (selectedTxs out) = elems (l_selectedTxs l) ++ map Transaction sel
        ∧ elems (selectedTxsHashes out) = elems (l_selectedTxsHashes l) ++ hashes sel
        ∧ elems (invalidTxsHashes out) = elems (l_invalidTxsHashes l) ++ hashes inv.
Proof.
  intros Hb Hsort Hpre Hp Hf He Hin Hn pk'.
  destruct (Base_SelectTxs_reaches _ _ _ _ _ _ _ _ _ _ Hb Hsort Hpre) as [-> Hc].
  rewrite (Base_range_reaches _ _ _ _ _ [] _ _ Hpre).
  rewrite (Base_body_nonce _ _ _ _ _ _ _ Hp Hf He Hin Hn).
  rewrite (after_call_calls _ _ _ _ _ _ Hc). fold pk'.
  split; [done|]. split; [done|].
  intros out p' Hout Herr.
  destruct (Base_finish_grows _ _ _ _ _ _ Hout Herr)
    as (lf & -> & sel & inv & Hs & Hi & E1 & E2 & E3).
  exists sel, inv. done.
Qed.
End Classification.

(** *** The pass-through selector *)

Section PassThrough.
Context `{Ethereum} {Meta St : Type}.
Implicit Types (p : processor St) (pendingTxs : list (pool_Transaction Meta)).

Lemma AcceptAll_range_made (ts : list types_Transaction) (hs : list string) pendingTxs :
  AcceptAll_range (Some ts) (Some hs) pendingTxs =
    (Some (ts ++ map Transaction pendingTxs), Some (hs ++ hashes pendingTxs)).
Proof.
  revert ts hs. induction pendingTxs as [|tx rest IH]; intros ts hs; simpl.
  - by rewrite !app_nil_r.
  - unfold append at 1 2. simpl. rewrite IH, <- !app_assoc. reflexivity.
Qed.

Lemma AcceptAll_SelectTxs_returns p pendingTxs (a : common_Address) :
  AcceptAll_SelectTxs p pendingTxs a =
    Returns ({| selectedTxs := Some (map Transaction pendingTxs);
                selectedTxsHashes := Some (hashes pendingTxs);
                invalidTxsHashes := None;
                err := None |}, p).
Proof.
  unfold AcceptAll_SelectTxs, make. by rewrite AcceptAll_range_made.
Qed.

(** C5.  For every pending list, [AcceptAll.SelectTxs] returns the
    transactions of the list in its order, as many as the list has, their
    hashes in the same order, no invalid hash and a nil error; the
    processor comes back as it went in, without a call made on it. *)
Theorem AcceptAll_SelectTxs_all p pendingTxs (a : common_Address) :
  ∃ out,
    AcceptAll_SelectTxs p pendingTxs a = Returns (out, p)
    ∧ elems (selectedTxs out) = map Transaction pendingTxs
    ∧ len (selectedTxs out) = length pendingTxs
    ∧ elems (selectedTxsHashes out) = hashes pendingTxs
    ∧ len (invalidTxsHashes out) = 0
    ∧ err out = None.
Proof.
  rewrite AcceptAll_SelectTxs_returns.
  eexists. split; [reflexivity|]. simpl. unfold len. simpl.
  by rewrite length_map.
Qed.
End PassThrough.

(** *** Invariants of the policy-driven loop *)

Section Invariants.
Context `{Ethereum} `{StatePkg} {Meta St : Type} {BP : batchProcessor St}.
Implicit Types (b : Base Meta) (l : locals) (p : processor St).
Implicit Types (tx : pool_Transaction Meta).
Implicit Types (txs seen pendingTxs : list (pool_Transaction Meta)).
Implicit Types (a : common_Address) (out : selection).

(** A property of the slices and of the transactions gone through that
    every iteration keeps holds of what the loop returns, except when the
    loop gives everything up. *)
Lemma Base_range_invariant a
    (I : list (pool_Transaction Meta) → locals → Prop) :
  (∀ seen l p tx l' p',
      I seen l → Base_body a l p tx = Next l' p' → I (seen ++ [tx]) l') →
  ∀ txs seen l p,
    I seen l →
    match Base_range a l p txs with
    | Next l' _ => I (seen ++ txs) l'
    | Return out _ =>
        (∃ seen' l', seen' `prefix_of` seen ++ txs ∧ I seen' l' ∧ out = return_locals l')
        ∨ (∃ e, out = return_error e)
    | Panic => True
    end.
Proof.
  intros Hstep. induction txs as [|tx txs IH]; intros seen l p HI; simpl.
  - by rewrite app_nil_r.
  - destruct (Base_body a l p tx) as [l1 p1|out p1|] eqn:Hb; [| |done].
    + specialize (IH (seen ++ [tx]) l1 p1 (Hstep _ _ _ _ _ _ HI Hb)).
      by rewrite <- app_assoc in IH.
    + apply Base_body_return in Hb as [->|[e ->]]; [left|right; eauto].
      exists seen, l. split; [by apply prefix_app_r|done].
Qed.

Lemma Base_body_aligned a l p tx l' p' :
  aligned l → Base_body a l p tx = Next l' p' → aligned l'.
Proof.
  unfold aligned. intros Hl Hb.
  destruct (Base_body_cases a l p tx); inversion Hb; subst; simpl; try done.
  by rewrite Hl, map_app.
Qed.

Lemma Base_SelectTxs_hashes_of_selected b p pendingTxs a out p' :
  Base_SelectTxs b p pendingTxs a = Returns (out, p') →
  elems (selectedTxsHashes out) = map hashHex (elems (selectedTxs out)).
Proof.
  unfold Base_SelectTxs. destruct (Base_TxSorter b) as [SortTxs|]; [|done].
  pose proof (Base_range_invariant a (λ _, aligned)
    (λ _ l p tx l' p', Base_body_aligned a l p tx l' p')
    (SortTxs pendingTxs) [] no_locals p eq_refl) as Hinv.
  destruct (Base_range _ _ _ _) as [l' p1|out1 p1|]; simpl; intros [= <- <-].
  - exact Hinv.
  - by destruct Hinv as [(_ & l' & _ & Hl & ->)|[e ->]].
Qed.

(** C6.  Whenever a selector, of either kind, returns, the selected
    transactions and the selected hashes have the same length, and the
    hash at each index is the hex hash of the transaction at that
    index. *)
Theorem SelectTxs_hashes_aligned (s : TxSelector Meta) p pendingTxs a out p' :
  SelectTxs s p pendingTxs a = Returns (out, p') →
  len (selectedTxs out) = len (selectedTxsHashes out)
  ∧ ∀ (i : nat) (t : types_Transaction),
      elems (selectedTxs out) !! i = Some t →
      elems (selectedTxsHashes out) !! i = Some (hashHex t).
Proof.
  intros Hret.
  assert (elems (selectedTxsHashes out) = map hashHex (elems (selectedTxs out))) as Hmap.
  { destruct s as [|b]; simpl in Hret.
    - rewrite AcceptAll_SelectTxs_returns in Hret. injection Hret as <- _.
      simpl. unfold hashes. by rewrite map_map.
    - by apply Base_SelectTxs_hashes_of_selected in Hret. }
  unfold len. rewrite Hmap. split; [by rewrite length_map|].
  intros i t Hi. by rewrite list_lookup_fmap, Hi.
Qed.

Lemma Base_body_ordered_apart a seen l p tx l' p' :
  ordered_apart seen l → Base_body a l p tx = Next l' p' →
  ordered_apart (seen ++ [tx]) l'.
Proof.
  unfold ordered_apart, hashes. rewrite map_app. simpl.
  intros (Hs & Hi & Hd) Hb.
  assert (∀ h, NoDup (map (λ tx, hashHex (Transaction tx)) seen ++ [h]) →
               NoDup (map (λ tx, hashHex (Transaction tx)) seen)
               ∧ h ∉ map (λ tx, hashHex (Transaction tx)) seen) as Hnd.
  { intros h Hn. apply NoDup_app in Hn as (Hn & Hno & _). split; [done|].
    intros Hin. apply (Hno _ Hin). by left. }
  destruct (Base_body_cases a l p tx); inversion Hb; subst; simpl.
  - split; [by apply sublist_app|]. split; [by apply sublist_inserts_r|].
    intros Hn h Hin Hinv. apply Hnd in Hn as [Hn Hfresh].
    apply elem_of_app in Hin as [Hin|Hin].
    + by apply (Hd Hn h).
    + apply list_elem_of_singleton in Hin as ->.
      apply Hfresh. by apply (elem_of_sublist _ _ _ Hinv Hi).
  - split; [by apply sublist_inserts_r|]. split; [by apply sublist_app|].
    intros Hn h Hin Hinv. apply Hnd in Hn as [Hn Hfresh].
    apply elem_of_app in Hinv as [Hinv|Hinv].
    + by apply (Hd Hn h).
    + apply list_elem_of_singleton in Hinv as ->.
      apply Hfresh. by apply (elem_of_sublist _ _ _ Hin Hs).
  - split; [by apply sublist_inserts_r|]. split; [by apply sublist_inserts_r|].
    intros Hn. apply Hnd in Hn as [Hn _]. by apply Hd.
Qed.

Lemma ordered_apart_prefix seen seen' l :
  seen' `prefix_of` seen → ordered_apart seen' l → ordered_apart seen l.
Proof.
  intros [rest ->] (Hs & Hi & Hd). unfold ordered_apart, hashes in *.
  rewrite map_app. split; [by apply sublist_inserts_r|].
  split; [by apply sublist_inserts_r|].
  intros Hn. apply NoDup_app in Hn as (Hn & _). by apply Hd.
Qed.

(** C7, as the code has it.  Whenever [Base.SelectTxs] returns, the
    selected hashes and the invalid hashes are each a subsequence of the
    hashes of the sorted transactions, so in the order of processing; and
    if the sorted transactions have pairwise different hashes, no hash is
    in both slices. *)
Theorem Base_SelectTxs_hashes_ordered_apart b SortTxs p pendingTxs a out p' :
  Base_TxSorter b = Some SortTxs →
  Base_SelectTxs b p pendingTxs a = Returns (out, p') →
  sublist (elems (selectedTxsHashes out)) (hashes (SortTxs pendingTxs))
  ∧ sublist (elems (invalidTxsHashes out)) (hashes (SortTxs pendingTxs))
  ∧ (NoDup (hashes (SortTxs pendingTxs)) →
     ∀ h, h ∈ elems (selectedTxsHashes out) → h ∉ elems (invalidTxsHashes out)).
Proof.
  intros Hb. unfold Base_SelectTxs. rewrite Hb.
  assert (ordered_apart (Meta:=Meta) [] no_locals) as Hinit.
  { repeat split; try apply sublist_nil_l. intros _ h Hin. by inversion Hin. }
  pose proof (Base_range_invariant a ordered_apart (Base_body_ordered_apart a)
    (SortTxs pendingTxs) [] no_locals p Hinit) as Hinv. simpl in Hinv.
  destruct (Base_range _ _ _ _) as [l' p1|out1 p1|]; simpl; intros [= <- <-].
  - exact Hinv.
  - destruct Hinv as [(seen' & l' & Hpre & Hl & ->)|[e ->]].
    + exact (ordered_apart_prefix _ _ _ Hpre Hl).
    + simpl. repeat split; try apply sublist_nil_l. intros _ h Hin. by inversion Hin.
Qed.
End Invariants.

(** *** Running the selection twice *)

Section Determinism.
Context `{Ethereum} `{StatePkg} {Meta St : Type} {BP : batchProcessor St}.
Implicit Types (b : Base Meta) (l : locals) (p : processor St).
Implicit Types (tx : pool_Transaction Meta).
Implicit Types (txs pendingTxs : list (pool_Transaction Meta)).
Implicit Types (a : common_Address) (out : selection).

(** The answer of the processor does not depend on its state. *)
Hypothesis pure : ∀ (s s' : St) (t : types_Transaction) a,
  (ProcessTransaction s t a).1 = (ProcessTransaction s' t a).1.

Lemma Base_body_pure a l p1 p2 tx :
  match Base_body a l p1 tx, Base_body a l p2 tx with
  | Next l1 _, Next l2 _ => l1 = l2
  | Return out1 _, Return out2 _ => out1 = out2
  | Panic, Panic => True
  | _, _ => False
  end.
Proof using pure.
  unfold Base_body, call.
  pose proof (pure (bp_state p1) (bp_state p2) (Transaction tx) a) as Hpure.
  destruct (ProcessTransaction (bp_state p1) _ _) as [r1 s1].
  destruct (ProcessTransaction (bp_state p2) _ _) as [r2 s2].
  simpl in Hpure. subst r2.
  destruct (Failed r1); [|done].
  destruct (Err r1) as [e|]; [|done].
  destruct (InvalidTxErrors_at (Error e)); [done|].
  destruct (errors_Is e state_ErrNonceIsBiggerThanAccountNonce); [done|].
  by destruct (errors_Is e state_ErrInvalidCumulativeGas).
Qed.

Lemma Base_range_pure a txs l p1 p2 :
  match Base_range a l p1 txs, Base_range a l p2 txs with
  | Next l1 _, Next l2 _ => l1 = l2
  | Return out1 _, Return out2 _ => out1 = out2
  | Panic, Panic => True
  | _, _ => False
  end.
Proof using pure.
  revert l p1 p2. induction txs as [|tx txs IH]; intros l p1 p2; simpl; [done|].
  pose proof (Base_body_pure a l p1 p2 tx) as Hb.
  destruct (Base_body a l p1 tx) as [l1 q1|o1 q1|],
           (Base_body a l p2 tx) as [l2 q2|o2 q2|]; try done.
  subst l2. apply IH.
Qed.

(** C9.  With a sorter that is a function of the pending list and a
    processor whose answers do not depend on its state, a second call of
    [Base.SelectTxs] on the same pending list and address, made on the
    processor as the first call left it, returns the same four values as
    the first. *)
Theorem Base_SelectTxs_twice b p pendingTxs a out p1 :
  Base_SelectTxs b p pendingTxs a = Returns (out, p1) →
  ∃ p2, Base_SelectTxs b p1 pendingTxs a = Returns (out, p2).
Proof using pure.
  unfold Base_SelectTxs. destruct (Base_TxSorter b) as [SortTxs|]; [|done].
  pose proof (Base_range_pure a (SortTxs pendingTxs) no_locals p p1) as Hr.
  destruct (Base_range a no_locals p _) as [l1 q1|o1 q1|],
           (Base_range a no_locals p1 _) as [l2 q2|o2 q2|];
    try done; simpl; intros [= <- <-]; subst; eauto.
Qed.
End Determinism.

(** *** The order of the tests on a failure *)

Section Precedence.
Context `{Ethereum} `{StatePkg} {Meta St : Type} {BP : batchProcessor St}.
Implicit Types (l : locals) (p : processor St) (tx : pool_Transaction Meta).
Implicit Types (a : common_Address) (e inner : error) (result : ExecutionResult).

(** C10.  On a failure with error [e], the loop first looks up the text of
    [e] in the set of invalid-transaction errors: if it is there, the hash
    goes to the invalid hashes and the loop goes on, whatever [errors.Is]
    says of [e] and the two sentinels.  Only otherwise is [e] compared
    with the nonce-ahead sentinel, then with the cumulative-gas sentinel,
    both through [errors.Is], which looks inside a wrapper; while a
    wrapper whose own text is outside the set is never recorded as
    invalid, whatever the text of the error inside it. *)
Theorem Base_body_test_order a l p tx result (s : St) e :
  ProcessTransaction (bp_state p) (Transaction tx) a = (result, s) →
  Failed result = true →
  Err result = Some e →
  (InvalidTxErrors_at (Error e) = true →
     Base_body a l p tx =
       Next {| l_selectedTxs := l_selectedTxs l;
               l_selectedTxsHashes := l_selectedTxsHashes l;
               l_invalidTxsHashes :=
                 Some (elems (l_invalidTxsHashes l) ++ [hashHex (Transaction tx)]) |}
            (after_call p tx a s))
  ∧ (InvalidTxErrors_at (Error e) = false →
       Base_body a l p tx =
         if errors_Is e state_ErrNonceIsBiggerThanAccountNonce then
           Next l (after_call p tx a s)
         else if errors_Is e state_ErrInvalidCumulativeGas then
           Return (return_locals l) (after_call p tx a s)
         else Return (return_error e) (after_call p tx a s))
  ∧ (∀ ptr msg inner,
       e = wrapError ptr msg inner →
       InvalidTxErrors_at msg = false →
       (errors_Is inner state_ErrNonceIsBiggerThanAccountNonce = true →
          Base_body a l p tx = Next l (after_call p tx a s))
       ∧ (errors_Is e state_ErrNonceIsBiggerThanAccountNonce = false →
          errors_Is inner state_ErrInvalidCumulativeGas = true →
          Base_body a l p tx = Return (return_locals l) (after_call p tx a s))
       ∧ (∀ l' p', Base_body a l p tx = Next l' p' → l' = l)).
Proof.
  intros Hp Hf He.
  assert (InvalidTxErrors_at (Error e) = false →
          Base_body a l p tx =
            if errors_Is e state_ErrNonceIsBiggerThanAccountNonce then
              Next l (after_call p tx a s)
            else if errors_Is e state_ErrInvalidCumulativeGas then
              Return (return_locals l) (after_call p tx a s)
            else Return (return_error e) (after_call p tx a s)) as Hchain.
  { intros Hin. unfold Base_body.
    rewrite (call_eq _ _ _ _ _ Hp), Hf, He, Hin. reflexivity. }
  split; [|split].
  - intros Hin. by rewrite (Base_body_invalid _ _ _ _ _ _ _ Hp Hf He Hin).
  - exact Hchain.
  - intros ptr msg inner -> Hmsg. specialize (Hchain Hmsg).
    split; [|split].
    + intros Hinner. by rewrite Hchain, (errors_Is_wrap _ _ _ _ Hinner).
    + intros Hn Hinner. by rewrite Hchain, Hn, (errors_Is_wrap _ _ _ _ Hinner).
    + intros l' p'. rewrite Hchain.
      destruct (errors_Is _ state_ErrNonceIsBiggerThanAccountNonce);
        [congruence|].
      by destruct (errors_Is _ state_ErrInvalidCumulativeGas).
Qed.
End Precedence.

(** *** Construction with an unknown sorter type *)

Section Construction.
Context `{Ethereum} `{StatePkg} {Meta St : Type} {BP : batchProcessor St}.
Context {SP : SorterPkg Meta}.

(** C8, what the code does instead.  For a sorter type that is neither
    [ByCostAndTime] nor [ByCostAndNonce], [NewTxSelectorBase] raises
    nothing and returns a selector whose [TxSorter] is nil; every call of
    [SelectTxs] on it panics. *)
Theorem NewTxSelectorBase_unknown_sorter_type (cfg : Config) :
  cfg_TxSorterType cfg ≠ ByCostAndTime →
  cfg_TxSorterType cfg ≠ ByCostAndNonce →
  NewTxSelectorBase cfg = TxSelector_Base {| Base_TxSorter := None |}
  ∧ ∀ (p : processor St) pendingTxs a,
      SelectTxs (NewTxSelectorBase cfg) p pendingTxs a = Panics.
Proof.
  intros Ht Hn.
  assert (NewTxSelectorBase cfg = TxSelector_Base {| Base_TxSorter := None |}) as Hnil.
  { unfold NewTxSelectorBase. by rewrite !decide_False. }
  split; [exact Hnil|]. intros p pendingTxs a. by rewrite Hnil.
Qed.
End Construction.

(** *** The success branch, and what a call that stops says of the run *)

Section Run.
Context `{Ethereum} `{StatePkg} {Meta St : Type} {BP : batchProcessor St}.
Implicit Types (b : Base Meta) (l lk : locals) (p pk : processor St).
Implicit Types (tx : pool_Transaction Meta).
Implicit Types (txs pendingTxs pre post : list (pool_Transaction Meta)).
Implicit Types (a : common_Address) (e : error) (result : ExecutionResult).
Implicit Types (out : selection).

(** The body of the loop, once the answer of the processor is known. *)
Lemma Base_body_unfold a l p tx result (s : St) :
  ProcessTransaction (bp_state p) (Transaction tx) a = (result, s) →
  Base_body a l p tx =
    if Failed result then
      match Err result with
      | None => Panic
      | Some e =>
          if InvalidTxErrors_at (Error e) then
            Next {| l_selectedTxs := l_selectedTxs l;
                    l_selectedTxsHashes := l_selectedTxsHashes l;
                    l_invalidTxsHashes :=
                      append (l_invalidTxsHashes l) (hashHex (Transaction tx)) |}
                 (after_call p tx a s)
          else if errors_Is e state_ErrNonceIsBiggerThanAccountNonce then
            Next l (after_call p tx a s)
          else if errors_Is e state_ErrInvalidCumulativeGas then
            Return (return_locals l) (after_call p tx a s)
          else
            Return (return_error e) (after_call p tx a s)
      end
    else
      Next {| l_selectedTxs := append (l_selectedTxs l) (Transaction tx);
              l_selectedTxsHashes :=
                append (l_selectedTxsHashes l) (hashHex (Transaction tx));
              l_invalidTxsHashes := l_invalidTxsHashes l |}
           (after_call p tx a s).
Proof. intros Hp. unfold Base_body. by rewrite (call_eq _ _ _ _ _ Hp). Qed.

(** A loop that returns from inside stopped at one transaction, reached
    without a stop, on a failure that is neither an invalid transaction
    nor a nonce ahead. *)
Lemma Base_range_stops a txs l p out p' :
  Base_range a l p txs = Return out p' →
  ∃ pre tx post lk pk result (s : St) e,
    txs = pre ++ tx :: post
    ∧ Base_range a l p pre = Next lk pk
    ∧ ProcessTransaction (bp_state pk) (Transaction tx) a = (result, s)
    ∧ Failed result = true ∧ Err result = Some e
    ∧ InvalidTxErrors_at (Error e) = false
    ∧ errors_Is e state_ErrNonceIsBiggerThanAccountNonce = false
    ∧ p' = after_call pk tx a s
    ∧ (errors_Is e state_ErrInvalidCumulativeGas = true ∧ out = return_locals lk
       ∨ errors_Is e state_ErrInvalidCumulativeGas = false ∧ out = return_error e).
Proof.
  revert l p. induction txs as [|tx txs IH]; intros l p; simpl; [done|].
  destruct (Base_body a l p tx) as [l1 p1|out1 p1|] eqn:Hb; [| |done].
  - intros Hrest.
    destruct (IH _ _ Hrest)
      as (pre & tx' & post & lk & pk & result & s & e & -> & Hpre & Hrest').
    exists (tx :: pre), tx', post, lk, pk, result, s, e.
    split; [done|]. split; [|exact Hrest']. simpl. by rewrite Hb.
  - intros [= -> ->].
    destruct (ProcessTransaction (bp_state p) (Transaction tx) a) as [result s] eqn:Hp.
    rewrite (Base_body_unfold _ _ _ _ _ _ Hp) in Hb.
    destruct (Failed result) eqn:Hf; [|done].
    destruct (Err result) as [e|] eqn:He; [|done].
    destruct (InvalidTxErrors_at (Error e)) eqn:Hin; [done|].
    destruct (errors_Is e state_ErrNonceIsBiggerThanAccountNonce) eqn:Hn; [done|].
    exists [], tx, txs, l, p, result, s, e.
    destruct (errors_Is e state_ErrInvalidCumulativeGas) eqn:Hg;
      injection Hb as <- <-; repeat split; auto.
Qed.

(** A loop that panics was given a failure without an error. *)
Lemma Base_range_panics a txs l p :
  Base_range a l p txs = Panic →
  ∃ pre tx post lk pk result (s : St),
    txs = pre ++ tx :: post
    ∧ Base_range a l p pre = Next lk pk
    ∧ ProcessTransaction (bp_state pk) (Transaction tx) a = (result, s)
    ∧ Failed result = true ∧ Err result = None.
Proof.
  revert l p. induction txs as [|tx txs IH]; intros l p; simpl; [done|].
  destruct (Base_body a l p tx) as [l1 p1|out1 p1|] eqn:Hb; [|done|].
  - intros Hrest.
    destruct (IH _ _ Hrest) as (pre & tx' & post & lk & pk & result & s & -> & Hpre & Hrest').
    exists (tx :: pre), tx', post, lk, pk, result, s.
    split; [done|]. split; [|exact Hrest']. simpl. by rewrite Hb.
  - intros _.
    destruct (ProcessTransaction (bp_state p) (Transaction tx) a) as [result s] eqn:Hp.
    rewrite (Base_body_unfold _ _ _ _ _ _ Hp) in Hb.
    destruct (Failed result) eqn:Hf; [|done].
    destruct (Err result) as [e|] eqn:He.
    + destruct (InvalidTxErrors_at (Error e)); [done|].
      destruct (errors_Is e state_ErrNonceIsBiggerThanAccountNonce); [done|].
      by destruct (errors_Is e state_ErrInvalidCumulativeGas).
    + by exists [], tx, txs, l, p, result, s.
Qed.

(** X1.  Let the loop of [Base.SelectTxs] reach the transaction [tx] with
    the slices [l].  If the processor's result for it is not failed,
    whatever its [Err] field holds, then after this iteration the selected
    transactions are those of [l] followed by [tx], the selected hashes
    those of [l] followed by the hash of [tx], the invalid hashes those of
    [l], and the call goes on with the transactions after [tx].  If the
    call then returns without error, [tx] and its hash stand in the
    selected slices right after those of [l], followed only by
    transactions that come after [tx]. *)
Theorem Base_SelectTxs_success_selected
    b SortTxs p pendingTxs a pre tx post l pk result (s : St) :
  Base_TxSorter b = Some SortTxs →
  SortTxs pendingTxs = pre ++ tx :: post →
  Base_range a no_locals p pre = Next l pk →
  ProcessTransaction (bp_state pk) (Transaction tx) a = (result, s) →
  Failed result = false →
  let l' := {| l_selectedTxs := Some (elems (l_selectedTxs l) ++ [Transaction tx]);
               l_selectedTxsHashes :=
                 Some (elems (l_selectedTxsHashes l) ++ [hashHex (Transaction tx)]);
               l_invalidTxsHashes := l_invalidTxsHashes l |} in
  let pk' := {| bp_state := s;
                bp_calls := bp_calls p ++ calls_for a (pre ++ [tx]) |} in
  Base_range a no_locals p (pre ++ [tx]) = Next l' pk'
  ∧ Base_SelectTxs b p pendingTxs a = Base_finish (Base_range a l' pk' post)
  ∧ ∀ out p',
      Base_SelectTxs b p pendingTxs a = Returns (out, p') → err out = None →
      ∃ sel inv,
        sublist sel post ∧ sublist inv post
        ∧ elems (selectedTxs out) =
            elems (l_selectedTxs l) ++ Transaction tx :: map Transaction sel
        ∧ elems (selectedTxsHashes out) =
            elems (l_selectedTxsHashes l) ++ hashHex (Transaction tx) :: hashes sel
        ∧ elems (invalidTxsHashes out) = elems (l_invalidTxsHashes l) ++ hashes inv.
Proof.
  intros Hb Hsort Hpre Hp Hf l' pk'.
  destruct (Base_SelectTxs_reaches _ _ _ _ _ _ _ _ _ _ Hb Hsort Hpre) as [-> Hc].
  rewrite (Base_range_reaches _ _ _ _ _ [] _ _ Hpre).
  rewrite (Base_body_success _ _ _ _ _ _ Hp Hf).
  rewrite (after_call_calls _ _ _ _ _ _ Hc). fold l' pk'.
  split; [done|]. split; [done|].
  intros out p' Hout Herr.
  destruct (Base_finish_grows _ _ _ _ _ _ Hout Herr)
    as (lf & -> & sel & inv & Hs & Hi & E1 & E2 & E3).
  exists sel, inv. simpl in *. rewrite E1, E2, E3, <- !app_assoc. done.
Qed.

(** X2.  [Base.SelectTxs] panics when the [TxSorter] of the selector is
    nil, and when the loop reaches a transaction for which the processor
    returns a result that is failed while its [Err] is nil. *)
Theorem Base_SelectTxs_panics b p pendingTxs a :
  (Base_TxSorter b = None
   ∨ ∃ SortTxs pre tx post l pk,
       Base_TxSorter b = Some SortTxs
       ∧ SortTxs pendingTxs = pre ++ tx :: post
       ∧ Base_range a no_locals p pre = Next l pk
       ∧ Failed (ProcessTransaction (bp_state pk) (Transaction tx) a).1 = true
       ∧ Err (ProcessTransaction (bp_state pk) (Transaction tx) a).1 = None) →
  Base_SelectTxs b p pendingTxs a = Panics.
Proof.
  unfold Base_SelectTxs.
  intros [->|(SortTxs & pre & tx & post & lk & pk & -> & -> & Hpre & Hf & He)]; [done|].
  rewrite (Base_range_reaches _ _ _ _ _ _ _ _ Hpre).
  destruct (ProcessTransaction (bp_state pk) (Transaction tx) a) as [result s] eqn:Hp.
  simpl in Hf, He.
  by rewrite (Base_body_unfold _ _ _ _ _ _ Hp), Hf, He.
Qed.

(** X3.  A selector, of either kind, whose [TxSorter] is not nil, used with
    a processor whose failed results always carry an error, returns on
    every pending list: it does not panic. *)
Theorem SelectTxs_returns (s : TxSelector Meta) p pendingTxs a :
  (∀ b, s = TxSelector_Base b → Base_TxSorter b ≠ None) →
  (∀ (st : St) (t : types_Transaction) a',
      Failed (ProcessTransaction st t a').1 = true →
      Err (ProcessTransaction st t a').1 ≠ None) →
  ∃ out p', SelectTxs s p pendingTxs a = Returns (out, p').
Proof.
  intros Hsorter Hwf. destruct s as [|b]; simpl.
  - rewrite AcceptAll_SelectTxs_returns. eauto.
  - unfold Base_SelectTxs.
    destruct (Base_TxSorter b) as [SortTxs|] eqn:Hb; [|by destruct (Hsorter b eq_refl)].
    destruct (Base_range a no_locals p (SortTxs pendingTxs)) as [l1 p1|o1 p1|] eqn:Hr;
      simpl; eauto.
    destruct (Base_range_panics _ _ _ _ Hr)
      as (pre & tx & post & lk & pk & result & st & _ & _ & Hp & Hf & He).
    specialize (Hwf (bp_state pk) (Transaction tx) a). rewrite Hp in Hwf.
    by destruct (Hwf Hf).
Qed.

(** X4.  [Base.SelectTxs] returns a non-nil error only by giving the call
    up: the three slices it returns are then nil, and the error is the one
    the processor gave for the last transaction it was called on, an error
    whose text is not in the set of invalid-transaction errors and which is
    neither the nonce-ahead nor the cumulative-gas sentinel. *)
Theorem Base_SelectTxs_error_only_from_abort b SortTxs p pendingTxs a out p' e :
  Base_TxSorter b = Some SortTxs →
  Base_SelectTxs b p pendingTxs a = Returns (out, p') →
  err out = Some e →
  selectedTxs out = None ∧ selectedTxsHashes out = None ∧ invalidTxsHashes out = None
  ∧ InvalidTxErrors_at (Error e) = false
  ∧ errors_Is e state_ErrNonceIsBiggerThanAccountNonce = false
  ∧ errors_Is e state_ErrInvalidCumulativeGas = false
  ∧ ∃ pre tx post l pk result (s : St),
      SortTxs pendingTxs = pre ++ tx :: post
      ∧ Base_range a no_locals p pre = Next l pk
      ∧ ProcessTransaction (bp_state pk) (Transaction tx) a = (result, s)
      ∧ Failed result = true ∧ Err result = Some e
      ∧ p' = {| bp_state := s; bp_calls := bp_calls p ++ calls_for a (pre ++ [tx]) |}.
Proof.
  intros Hb. unfold Base_SelectTxs. rewrite Hb.
  destruct (Base_range a no_locals p (SortTxs pendingTxs)) as [l1 p1|o1 p1|] eqn:Hr;
    simpl; [by intros [= <- <-]| |done].
  intros [= <- <-] Herr.
  destruct (Base_range_stops _ _ _ _ _ _ Hr)
    as (pre & tx & post & lk & pk & result & s & e' & Hsplit & Hpre & Hp & Hf & He
        & Hin & Hn & -> & [[Hg ->]|[Hg ->]]); [done|].
  injection Herr as ->.
  repeat (split; [done|]).
  exists pre, tx, post, lk, pk, result, s. repeat (split; [done|]).
  apply after_call_calls. by apply Base_range_calls in Hpre.
Qed.
End Run.

(** *** What a whole call returns *)

Section Whole.
Context `{Ethereum} `{StatePkg} {Meta St : Type} {BP : batchProcessor St}.
Implicit Types (b : Base Meta) (l lk : locals) (p pk : processor St).
Implicit Types (tx : pool_Transaction Meta).
Implicit Types (txs seen pendingTxs pre post : list (pool_Transaction Meta)).
Implicit Types (a : common_Address) (e : error) (result : ExecutionResult).
Implicit Types (out : selection).

Lemma sublist_map {A B} (f : A → B) (l1 l2 : list A) :
  sublist l1 l2 → sublist (map f l1) (map f l2).
Proof. induction 1; simpl; by constructor. Qed.

Lemma Base_range_all_succeed a txs :
  (∀ (st : St) tx, tx ∈ txs →
     Failed (ProcessTransaction st (Transaction tx) a).1 = false) →
  ∀ l p, ∃ l' p',
    Base_range a l p txs = Next l' p'
    ∧ elems (l_selectedTxs l') = elems (l_selectedTxs l) ++ map Transaction txs
    ∧ elems (l_selectedTxsHashes l') = elems (l_selectedTxsHashes l) ++ hashes txs
    ∧ l_invalidTxsHashes l' = l_invalidTxsHashes l
    ∧ bp_calls p' = bp_calls p ++ calls_for a txs.
Proof.
  induction txs as [|tx txs IH]; intros Hall l p; simpl.
  - exists l, p. by rewrite !app_nil_r.
  - destruct (ProcessTransaction (bp_state p) (Transaction tx) a) as [result s] eqn:Hp.
    assert (Failed result = false) as Hf.
    { specialize (Hall (bp_state p) tx). rewrite Hp in Hall. apply Hall. by left. }
    rewrite (Base_body_success _ _ _ _ _ _ Hp Hf).
    destruct (IH (λ st tx' Hin, Hall st tx' (list_elem_of_further _ _ _ Hin))
                 {| l_selectedTxs := append (l_selectedTxs l) (Transaction tx);
                    l_selectedTxsHashes :=
                      append (l_selectedTxsHashes l) (hashHex (Transaction tx));
                    l_invalidTxsHashes := l_invalidTxsHashes l |}
                 (after_call p tx a s))
      as (l' & p' & -> & E1 & E2 & E3 & E4).
    exists l', p'. simpl in *. rewrite E1, E2, E3, E4, <- !app_assoc. done.
Qed.

(** X5.  If the processor fails none of the sorted transactions, in any
    state, [Base.SelectTxs] selects them all: the selected transactions are
    the sorted ones, in sorted order, the selected hashes are their hashes,
    the invalid hashes are nil, the error is nil, and the processor has
    been called once for each of them, in that order. *)
Theorem Base_SelectTxs_all_succeed b SortTxs p pendingTxs a :
  Base_TxSorter b = Some SortTxs →
  (∀ (st : St) tx, tx ∈ SortTxs pendingTxs →
     Failed (ProcessTransaction st (Transaction tx) a).1 = false) →
  ∃ out p',
    Base_SelectTxs b p pendingTxs a = Returns (out, p')
    ∧ elems (selectedTxs out) = map Transaction (SortTxs pendingTxs)
    ∧ elems (selectedTxsHashes out) = hashes (SortTxs pendingTxs)
    ∧ invalidTxsHashes out = None
    ∧ err out = None
    ∧ bp_calls p' = bp_calls p ++ calls_for a (SortTxs pendingTxs).
Proof.
  intros Hb Hall. unfold Base_SelectTxs. rewrite Hb.
  destruct (Base_range_all_succeed a _ Hall no_locals p)
    as (l' & p' & -> & E1 & E2 & E3 & E4).
  exists (return_locals l'), p'. simpl. by rewrite E1, E2, E3, E4.
Qed.

Lemma Base_body_nil_iff_empty a l p tx l' p' :
  (l_selectedTxs l = None ↔ len (l_selectedTxs l) = 0)
  ∧ (l_selectedTxsHashes l = None ↔ len (l_selectedTxsHashes l) = 0)
  ∧ (l_invalidTxsHashes l = None ↔ len (l_invalidTxsHashes l) = 0) →
  Base_body a l p tx = Next l' p' →
  (l_selectedTxs l' = None ↔ len (l_selectedTxs l') = 0)
  ∧ (l_selectedTxsHashes l' = None ↔ len (l_selectedTxsHashes l') = 0)
  ∧ (l_invalidTxsHashes l' = None ↔ len (l_invalidTxsHashes l') = 0).
Proof.
  intros (H1 & H2 & H3) Hb.
  assert (∀ {A} (s : slice A) (x : A), append s x = None ↔ len (append s x) = 0) as Happ.
  { intros A s x. rewrite len_append. split; [discriminate | lia]. }
  destruct (Base_body_cases a l p tx); inversion Hb; subst; simpl; auto.
Qed.

(** X6.  Whenever [Base.SelectTxs] returns, each of its three slices is
    nil exactly when it has no element: it never returns an empty slice
    that is not nil.  [AcceptAll.SelectTxs] returns selected transactions
    and selected hashes that are never nil, also for an empty pending list,
    and invalid hashes that are always nil. *)
Theorem SelectTxs_nil_slices (s : TxSelector Meta) p pendingTxs a out p' :
  SelectTxs s p pendingTxs a = Returns (out, p') →
  match s with
  | TxSelector_AcceptAll =>
      selectedTxs out ≠ None ∧ selectedTxsHashes out ≠ None
      ∧ invalidTxsHashes out = None
  | TxSelector_Base _ =>
      (selectedTxs out = None ↔ len (selectedTxs out) = 0)
      ∧ (selectedTxsHashes out = None ↔ len (selectedTxsHashes out) = 0)
      ∧ (invalidTxsHashes out = None ↔ len (invalidTxsHashes out) = 0)
  end.
Proof.
  destruct s as [|b]; simpl.
  - rewrite AcceptAll_SelectTxs_returns. by intros [= <- _].
  - unfold Base_SelectTxs. destruct (Base_TxSorter b) as [SortTxs|]; [|done].
    pose proof (Base_range_invariant a
      (λ _ l, (l_selectedTxs l = None ↔ len (l_selectedTxs l) = 0)
              ∧ (l_selectedTxsHashes l = None ↔ len (l_selectedTxsHashes l) = 0)
              ∧ (l_invalidTxsHashes l = None ↔ len (l_invalidTxsHashes l) = 0))
      (λ _ l p tx l' p', Base_body_nil_iff_empty a l p tx l' p')
      (SortTxs pendingTxs) [] no_locals p) as Hinv.
    simpl in Hinv. specialize (Hinv (conj (conj (λ _, eq_refl) (λ _, eq_refl))
      (conj (conj (λ _, eq_refl) (λ _, eq_refl)) (conj (λ _, eq_refl) (λ _, eq_refl))))).
    destruct (Base_range _ _ _ _) as [l' p1|out1 p1|]; simpl; intros [= <- <-].
    + exact Hinv.
    + by destruct Hinv as [(_ & l' & _ & Hl & ->)|[e ->]].
Qed.

Lemma Base_range_counts a txs l p l' p' :
  Base_range a l p txs = Next l' p' →
  len (l_selectedTxs l') + len (l_invalidTxsHashes l')
    ≤ len (l_selectedTxs l) + len (l_invalidTxsHashes l) + length txs.
Proof.
  revert l p. induction txs as [|tx txs IH]; intros l p; simpl.
  - intros [= <- _]. lia.
  - destruct (Base_body_cases a l p tx); try discriminate;
      intros Hrest; apply IH in Hrest; simpl in Hrest;
      rewrite ?len_append in Hrest; lia.
Qed.

(** X7.  Whenever [Base.SelectTxs] returns, the calls it made on the
    processor are those for the first [k] sorted transactions, for some
    [k]: one call each, in sorted order, all with the sequencer address it
    was given, after the calls the processor had seen before.  The selected
    transactions and the invalid hashes together are at most [k]. *)
Theorem Base_SelectTxs_calls_bounded b SortTxs p pendingTxs a out p' :
  Base_TxSorter b = Some SortTxs →
  Base_SelectTxs b p pendingTxs a = Returns (out, p') →
  ∃ k : nat,
    k ≤ length (SortTxs pendingTxs)
    ∧ bp_calls p' = bp_calls p ++ calls_for a (take k (SortTxs pendingTxs))
    ∧ len (selectedTxs out) + len (invalidTxsHashes out) ≤ k.
Proof.
  intros Hb. unfold Base_SelectTxs. rewrite Hb.
  destruct (Base_range a no_locals p (SortTxs pendingTxs)) as [l1 p1|o1 p1|] eqn:Hr;
    simpl; intros [= <- <-].
  - exists (length (SortTxs pendingTxs)). split; [done|].
    rewrite take_ge by done. split; [by apply Base_range_calls in Hr|].
    apply Base_range_counts in Hr. simpl in *. unfold len in *. simpl in *. lia.
  - destruct (Base_range_stops _ _ _ _ _ _ Hr)
      as (pre & tx & post & lk & pk & result & s & e & Hsplit & Hpre & Hp & Hf & He
          & Hin & Hn & -> & Hout).
    exists (S (length pre)). rewrite Hsplit.
    replace (pre ++ tx :: post) with ((pre ++ [tx]) ++ post) by by rewrite <- app_assoc.
    rewrite take_app_length' by (rewrite length_app; simpl; lia).
    split; [rewrite !length_app; simpl; lia|].
    split.
    + simpl. unfold calls_for. rewrite map_app, app_assoc. simpl.
      by rewrite (Base_range_calls _ _ _ _ _ _ Hpre).
    + apply Base_range_counts in Hpre.
      destruct Hout as [[_ ->]|[_ ->]]; simpl in *; unfold len in *; simpl in *; lia.
Qed.

(** X8.  Whenever [Base.SelectTxs] returns, the selected transactions are
    sorted transactions, in sorted order.  If the sorter returns the
    pending list rearranged, no transaction is selected more often than it
    is pending, and no hash is reported invalid more often than a pending
    transaction has it. *)
Theorem Base_SelectTxs_selected_from_pending b SortTxs p pendingTxs a out p' :
  Base_TxSorter b = Some SortTxs →
  Base_SelectTxs b p pendingTxs a = Returns (out, p') →
  sublist (elems (selectedTxs out)) (map Transaction (SortTxs pendingTxs))
  ∧ (SortTxs pendingTxs ≡ₚ pendingTxs →
     elems (selectedTxs out) ⊆+ map Transaction pendingTxs
     ∧ elems (invalidTxsHashes out) ⊆+ hashes pendingTxs).
Proof.
  intros Hb. unfold Base_SelectTxs. rewrite Hb. intros Hret.
  assert (sublist (elems (selectedTxs out)) (map Transaction (SortTxs pendingTxs))
          ∧ sublist (elems (invalidTxsHashes out)) (hashes (SortTxs pendingTxs)))
    as [Hsel Hinv].
  { pose proof (Base_range_grows a (SortTxs pendingTxs) no_locals p) as Hg.
    destruct (Base_range _ _ _ _) as [l1 p1|o1 p1|]; simpl in Hret; [| |done];
      injection Hret as <- <-.
    - destruct Hg as (sel & inv & Hs & Hi & E1 & _ & E3). simpl in *.
      rewrite E1, E3. split; by apply sublist_map.
    - destruct Hg as [(l1 & -> & sel & inv & Hs & Hi & E1 & _ & E3)|[e ->]]; simpl in *.
      + rewrite E1, E3. split; by apply sublist_map.
      + split; apply sublist_nil_l. }
  split; [exact Hsel|]. intros Hperm. split.
  - etrans; [by apply sublist_submseteq|].
    apply Permutation_submseteq. clear -Hperm.
    induction Hperm; simpl; by econstructor.
  - etrans; [by apply sublist_submseteq|].
    apply Permutation_submseteq. unfold hashes. clear -Hperm.
    induction Hperm; simpl; by econstructor.
Qed.

(** What the processor said of the transactions behind the slices. *)
Lemma Base_body_sound a seen l p tx l' p' :
  Forall (λ t, ∃ st : St, Failed (ProcessTransaction st t a).1 = false)
         (elems (l_selectedTxs l))
  ∧ Forall (λ h, ∃ (st : St) tx' e,
              tx' ∈ seen ∧ h = hashHex (Transaction tx')
              ∧ Failed (ProcessTransaction st (Transaction tx') a).1 = true
              ∧ Err (ProcessTransaction st (Transaction tx') a).1 = Some e
              ∧ InvalidTxErrors_at (Error e) = true)
           (elems (l_invalidTxsHashes l)) →
  Base_body a l p tx = Next l' p' →
  Forall (λ t, ∃ st : St, Failed (ProcessTransaction st t a).1 = false)
         (elems (l_selectedTxs l'))
  ∧ Forall (λ h, ∃ (st : St) tx' e,
              tx' ∈ seen ++ [tx] ∧ h = hashHex (Transaction tx')
              ∧ Failed (ProcessTransaction st (Transaction tx') a).1 = true
              ∧ Err (ProcessTransaction st (Transaction tx') a).1 = Some e
              ∧ InvalidTxErrors_at (Error e) = true)
           (elems (l_invalidTxsHashes l')).
Proof.
  intros [Hsel Hinv] Hb.
  assert (Forall (λ h, ∃ (st : St) tx' e,
              tx' ∈ seen ++ [tx] ∧ h = hashHex (Transaction tx')
              ∧ Failed (ProcessTransaction st (Transaction tx') a).1 = true
              ∧ Err (ProcessTransaction st (Transaction tx') a).1 = Some e
              ∧ InvalidTxErrors_at (Error e) = true)
           (elems (l_invalidTxsHashes l))) as Hinv'.
  { eapply Forall_impl; [exact Hinv|]. intros h (st & tx' & e & Hin & Hrest).
    exists st, tx', e. split; [|done]. apply elem_of_app. by left. }
  destruct (ProcessTransaction (bp_state p) (Transaction tx) a) as [result s] eqn:Hp.
  rewrite (Base_body_unfold _ _ _ _ _ _ Hp) in Hb.
  destruct (Failed result) eqn:Hf.
  - destruct (Err result) as [e|] eqn:He; [|done].
    destruct (InvalidTxErrors_at (Error e)) eqn:Hin.
    + injection Hb as <- _. simpl. split; [done|].
      apply Forall_app. split; [done|]. apply Forall_singleton.
      exists (bp_state p), tx, e. rewrite Hp. simpl.
      split; [apply elem_of_app; right; by left|done].
    + destruct (errors_Is e state_ErrNonceIsBiggerThanAccountNonce).
      * by injection Hb as <- _.
      * by destruct (errors_Is e state_ErrInvalidCumulativeGas).
  - injection Hb as <- _. simpl. split; [|done].
    apply Forall_app. split; [done|]. apply Forall_singleton.
    exists (bp_state p). by rewrite Hp.
Qed.

(** X9.  Whenever [Base.SelectTxs] returns, every selected transaction is
    one the processor does not fail in some state, and every invalid hash
    is the hash of a sorted transaction that the processor fails, in some
    state, with an error whose text is in the set of invalid-transaction
    errors. *)
Theorem Base_SelectTxs_sound b SortTxs p pendingTxs a out p' :
  Base_TxSorter b = Some SortTxs →
  Base_SelectTxs b p pendingTxs a = Returns (out, p') →
  (∀ t, t ∈ elems (selectedTxs out) →
     ∃ st : St, Failed (ProcessTransaction st t a).1 = false)
  ∧ (∀ h, h ∈ elems (invalidTxsHashes out) →
       ∃ (st : St) tx e,
         tx ∈ SortTxs pendingTxs ∧ h = hashHex (Transaction tx)
         ∧ Failed (ProcessTransaction st (Transaction tx) a).1 = true
         ∧ Err (ProcessTransaction st (Transaction tx) a).1 = Some e
         ∧ InvalidTxErrors_at (Error e) = true).
Proof.
  intros Hb. unfold Base_SelectTxs. rewrite Hb.
  pose proof (Base_range_invariant a
    (λ seen l,
       Forall (λ t, ∃ st : St, Failed (ProcessTransaction st t a).1 = false)
              (elems (l_selectedTxs l))
       ∧ Forall (λ h, ∃ (st : St) tx' e,
                   tx' ∈ seen ∧ h = hashHex (Transaction tx')
                   ∧ Failed (ProcessTransaction st (Transaction tx') a).1 = true
                   ∧ Err (ProcessTransaction st (Transaction tx') a).1 = Some e
                   ∧ InvalidTxErrors_at (Error e) = true)
                (elems (l_invalidTxsHashes l)))
    (Base_body_sound a) (SortTxs pendingTxs) [] no_locals p
    (conj (Forall_nil_2 _) (Forall_nil_2 _))) as Hinv.
  simpl in Hinv.
  destruct (Base_range _ _ _ _) as [l' p1|out1 p1|]; simpl; intros [= <- <-].
  - destruct Hinv as [Hsel Hi]. simpl.
    split; [exact (proj1 (Forall_forall _ _) Hsel)|exact (proj1 (Forall_forall _ _) Hi)].
  - destruct Hinv as [(seen' & l' & [rest Hpre] & [Hsel Hi] & ->)|[e ->]]; simpl.
    + split; [exact (proj1 (Forall_forall _ _) Hsel)|].
      pose proof (proj1 (Forall_forall _ _) Hi) as Hi'. clear Hi. rename Hi' into Hi.
      intros h Hh. destruct (Hi h Hh) as (st & tx & e & Hin & Hrest).
      exists st, tx, e. split; [|done]. rewrite Hpre. apply elem_of_app. by left.
    + split; intros x Hx; by inversion Hx.
Qed.
End Whole.

(** *** Construction with a named sorter type *)

Section Named.
Context `{Ethereum} `{StatePkg} {Meta St : Type} {BP : batchProcessor St}.
Context {SP : SorterPkg Meta}.

(** X10.  For the sorter type [ByCostAndTime], [NewTxSelectorBase] returns
    a selector that sorts with [TxSorterByCostAndTime]; for
    [ByCostAndNonce], when that is another value, one that sorts with
    [TxSorterByCostAndNonce].  The selector it returns has a nil [TxSorter]
    exactly when the sorter type is neither of the two, and with a
    processor whose failed results always carry an error these are the
    only sorter types for which a call of [SelectTxs] on it panics. *)
Theorem NewTxSelectorBase_named (cfg : Config) (p : processor St) pendingTxs a :
  (cfg_TxSorterType cfg = ByCostAndTime →
     SelectTxs (NewTxSelectorBase cfg) p pendingTxs a =
       Base_finish (Base_range a no_locals p (TxSorterByCostAndTime_SortTxs pendingTxs)))
  ∧ (cfg_TxSorterType cfg ≠ ByCostAndTime → cfg_TxSorterType cfg = ByCostAndNonce →
       SelectTxs (NewTxSelectorBase cfg) p pendingTxs a =
         Base_finish (Base_range a no_locals p (TxSorterByCostAndNonce_SortTxs pendingTxs)))
  ∧ (NewTxSelectorBase cfg = TxSelector_Base {| Base_TxSorter := None |} ↔
       cfg_TxSorterType cfg ≠ ByCostAndTime ∧ cfg_TxSorterType cfg ≠ ByCostAndNonce)
  ∧ ((∀ (st : St) (t : types_Transaction) a',
         Failed (ProcessTransaction st t a').1 = true →
         Err (ProcessTransaction st t a').1 ≠ None) →
     (SelectTxs (NewTxSelectorBase cfg) p pendingTxs a = Panics ↔
        cfg_TxSorterType cfg ≠ ByCostAndTime ∧ cfg_TxSorterType cfg ≠ ByCostAndNonce)).
Proof.
  assert (∀ SortTxs : list (pool_Transaction Meta) → list (pool_Transaction Meta),
          (∀ (st : St) (t : types_Transaction) a',
            Failed (ProcessTransaction st t a').1 = true →
            Err (ProcessTransaction st t a').1 ≠ None) →
          Base_finish (Base_range a no_locals p (SortTxs pendingTxs)) ≠ Panics) as Hret.
  { intros SortTxs Hwf.
    destruct (Base_range a no_locals p (SortTxs pendingTxs)) as [l1 p1|o1 p1|] eqn:Hr;
      simpl; try done.
    destruct (Base_range_panics _ _ _ _ Hr)
      as (pre & tx & post & lk & pk & result & st & _ & _ & Hp & Hf & He).
    specialize (Hwf (bp_state pk) (Transaction tx) a). rewrite Hp in Hwf.
    by destruct (Hwf Hf). }
  unfold NewTxSelectorBase. simpl. unfold Base_SelectTxs. simpl.
  destruct (decide (cfg_TxSorterType cfg = ByCostAndTime)) as [Ht|Ht];
    [|destruct (decide (cfg_TxSorterType cfg = ByCostAndNonce)) as [Hn|Hn]].
  - split; [done|]. split; [done|]. split; [split; [done|by intros [? _]]|].
    intros Hwf. split; [by intros ?%Hret|by intros [? _]].
  - split; [done|]. split; [done|]. split; [split; [done|by intros [_ ?]]|].
    intros Hwf. split; [by intros ?%Hret|by intros [_ ?]].
  - split; [done|]. split; [done|]. split; [done|]. done.
Qed.
End Named.

(** ** The selectors on the small instance *)

#[local] Existing Instances Demo.ethereum Demo.state Demo.batch Demo.sorters.

(** The example of the specification: [A] is applied, [B] has a bad
    signature, [C] is ahead of its nonce, [D] does not fit. *)
Lemma Base_SelectTxs_cumulative_gas_stops_witness :
  SelectTxs Demo.byTime (Demo.fresh []) [Demo.A; Demo.B; Demo.C; Demo.D] "seq" =
    Returns ({| selectedTxs := Some ["A"];
                selectedTxsHashes := Some ["0xA"];
                invalidTxsHashes := Some ["0xB"];
                err := None |},
             {| bp_state := ["A"];
                bp_calls := [("A", "seq"); ("B", "seq"); ("C", "seq"); ("D", "seq")] |}).
Proof.
  apply (Base_SelectTxs_cumulative_gas_stops Demo.byTimeBase (λ txs, txs) (Demo.fresh [])
           [Demo.A; Demo.B; Demo.C; Demo.D] "seq" [Demo.A; Demo.B; Demo.C] Demo.D []
           (Demo.built (Some ["A"]) (Some ["0xA"]) (Some ["0xB"]))
           (Demo.called ["A"] [("A", "seq"); ("B", "seq"); ("C", "seq")])
           (Demo.failed Demo.ErrInvalidCumulativeGas) ["A"] Demo.ErrInvalidCumulativeGas);
    reflexivity.
Defined.

Lemma Base_SelectTxs_unknown_error_aborts_witness :
  SelectTxs Demo.byTime (Demo.fresh []) [Demo.A; Demo.B; Demo.E; Demo.D] "seq" =
    Returns ({| selectedTxs := None;
                selectedTxsHashes := None;
                invalidTxsHashes := None;
                err := Some Demo.ErrDatabase |},
             {| bp_state := ["A"];
                bp_calls := [("A", "seq"); ("B", "seq"); ("E", "seq")] |}).
Proof.
  apply (Base_SelectTxs_unknown_error_aborts Demo.byTimeBase (λ txs, txs) (Demo.fresh [])
           [Demo.A; Demo.B; Demo.E; Demo.D] "seq" [Demo.A; Demo.B] Demo.E [Demo.D]
           (Demo.built (Some ["A"]) (Some ["0xA"]) (Some ["0xB"]))
           (Demo.called ["A"] [("A", "seq"); ("B", "seq")])
           (Demo.failed Demo.ErrDatabase) ["A"] Demo.ErrDatabase);
    reflexivity.
Defined.

Lemma Base_SelectTxs_invalid_recorded_witness :
  Base_range "seq" no_locals (Demo.fresh []) [Demo.A; Demo.B] =
    Next (Demo.built (Some ["A"]) (Some ["0xA"]) (Some ["0xB"]))
         (Demo.called ["A"] [("A", "seq"); ("B", "seq")])
  ∧ SelectTxs Demo.byTime (Demo.fresh []) [Demo.A; Demo.B; Demo.C; Demo.D] "seq" =
      Base_finish (Base_range "seq"
        (Demo.built (Some ["A"]) (Some ["0xA"]) (Some ["0xB"]))
        (Demo.called ["A"] [("A", "seq"); ("B", "seq")]) [Demo.C; Demo.D])
  ∧ ("B" ∉ ["A"]) ∧ ("0xB" ∉ ["0xA"]).
Proof.
  pose proof (Base_SelectTxs_invalid_recorded Demo.byTimeBase (λ txs, txs) (Demo.fresh [])
           [Demo.A; Demo.B; Demo.C; Demo.D] "seq" [Demo.A] Demo.B [Demo.C; Demo.D]
           (Demo.built (Some ["A"]) (Some ["0xA"]) None)
           (Demo.called ["A"] [("A", "seq")])
           (Demo.failed Demo.ErrInvalidSig) ["A"] Demo.ErrInvalidSig
           eq_refl eq_refl eq_refl eq_refl eq_refl eq_refl eq_refl) as (W1 & W2 & _ & W4).
  split; [exact W1|]. split; [exact W2|].
  assert (NoDup (hashes [Demo.A; Demo.B; Demo.C; Demo.D])) as Hnd.
  { apply (bool_decide_unpack _). vm_compute. exact I. }
  destruct (W4 Hnd (Demo.returned (Some ["A"]) (Some ["0xA"]) (Some ["0xB"]))
              (Demo.called ["A"] [("A", "seq"); ("B", "seq"); ("C", "seq"); ("D", "seq")])
              eq_refl) as (W5 & W6 & _).
  split; [exact W5 | exact W6].
Defined.

(** The same transaction twice in the pending list, the other way round:
    the second one is failed for its used nonce, an invalid-transaction
    error, and yet the transaction and its hash are selected. *)
Lemma Base_SelectTxs_invalid_yet_selected :
  (Base_range "seq" no_locals (Demo.fresh []) [Demo.A] =
     Next (Demo.built (Some ["A"]) (Some ["0xA"]) None) (Demo.called ["A"] [("A", "seq")])
   ∧ ProcessTransaction ["A"] (Transaction (Demo.pending "A" 7)) "seq" =
       (Demo.failed Demo.ErrNonceIsSmallerThanAccountNonce, ["A"])
   ∧ InvalidTxErrors_at (Error Demo.ErrNonceIsSmallerThanAccountNonce) = true)
  ∧ ¬ (∀ out p',
         SelectTxs Demo.byTime (Demo.fresh []) [Demo.A; Demo.pending "A" 7] "seq"
           = Returns (out, p') →
         (Transaction (Demo.pending "A" 7) ∉ elems (selectedTxs out))
         ∧ (hashHex (Transaction (Demo.pending "A" 7)) ∉ elems (selectedTxsHashes out))).
Proof.
  split; [by repeat split|].
  intros Hclaim.
  destruct (Hclaim (Demo.returned (Some ["A"]) (Some ["0xA"]) (Some ["0xA"]))
                   (Demo.called ["A"] [("A", "seq"); ("A", "seq")])
                   eq_refl) as [Hsel _].
  apply Hsel. simpl. by left.
Qed.

Lemma Base_SelectTxs_nonce_ahead_skipped_witness :
  Base_range "seq" no_locals (Demo.fresh []) [Demo.A; Demo.B; Demo.C] =
    Next (Demo.built (Some ["A"]) (Some ["0xA"]) (Some ["0xB"]))
         (Demo.called ["A"] [("A", "seq"); ("B", "seq"); ("C", "seq")])
  ∧ SelectTxs Demo.byTime (Demo.fresh []) [Demo.A; Demo.B; Demo.C; Demo.D] "seq" =
      Base_finish (Base_range "seq"
        (Demo.built (Some ["A"]) (Some ["0xA"]) (Some ["0xB"]))
        (Demo.called ["A"] [("A", "seq"); ("B", "seq"); ("C", "seq")]) [Demo.D]).
Proof.
  pose proof (Base_SelectTxs_nonce_ahead_skipped Demo.byTimeBase (λ txs, txs) (Demo.fresh [])
           [Demo.A; Demo.B; Demo.C; Demo.D] "seq" [Demo.A; Demo.B] Demo.C [Demo.D]
           (Demo.built (Some ["A"]) (Some ["0xA"]) (Some ["0xB"]))
           (Demo.called ["A"] [("A", "seq"); ("B", "seq")])
           (Demo.failed Demo.ErrNonceIsBiggerThanAccountNonce) ["A"]
           Demo.ErrNonceIsBiggerThanAccountNonce
           eq_refl eq_refl eq_refl eq_refl eq_refl eq_refl eq_refl eq_refl) as (W1 & W2 & _).
  split; [exact W1 | exact W2].
Defined.

Lemma SelectTxs_hashes_aligned_witness :
  len (Some ["A"; "H"] : slice string) = len (Some ["0xA"; "0xH"] : slice string)
  ∧ ∀ (i : nat) (t : string),
      ["A"; "H"] !! i = Some t → ["0xA"; "0xH"] !! i = Some (hashHex t).
Proof.
  exact (SelectTxs_hashes_aligned Demo.byTime (Demo.fresh [])
           [Demo.A; Demo.B; Demo.pending "H" 7; Demo.D] "seq"
           {| selectedTxs := Some ["A"; "H"];
              selectedTxsHashes := Some ["0xA"; "0xH"];
              invalidTxsHashes := Some ["0xB"];
              err := None |}
           (Demo.called ["A"; "H"]
              [("A", "seq"); ("B", "seq"); ("H", "seq"); ("D", "seq")])
           eq_refl).
Defined.

(** The same transaction twice in the pending list: the first one is
    applied, the second one then has a used nonce.  Its hash is selected
    and invalid at once. *)
Lemma Base_SelectTxs_hash_in_both :
  ¬ (∀ out p',
       SelectTxs Demo.byTime (Demo.fresh []) [Demo.A; Demo.pending "A" 7] "seq"
         = Returns (out, p') →
       ∀ h, h ∈ elems (selectedTxsHashes out) → h ∉ elems (invalidTxsHashes out)).
Proof.
  intros Hclaim.
  apply (Hclaim (Demo.returned (Some ["A"]) (Some ["0xA"]) (Some ["0xA"]))
                (Demo.called ["A"] [("A", "seq"); ("A", "seq")])
                eq_refl "0xA"); simpl; by left.
Qed.

Lemma Base_SelectTxs_hashes_ordered_apart_witness :
  sublist ["0xA"; "0xH"] ["0xA"; "0xB"; "0xC"; "0xH"]
  ∧ sublist ["0xB"] ["0xA"; "0xB"; "0xC"; "0xH"]
  ∧ (NoDup ["0xA"; "0xB"; "0xC"; "0xH"] →
     ∀ h, h ∈ ["0xA"; "0xH"] → h ∉ ["0xB"]).
Proof.
  exact (Base_SelectTxs_hashes_ordered_apart Demo.byTimeBase (λ txs, txs) (Demo.fresh [])
           [Demo.A; Demo.B; Demo.C; Demo.pending "H" 7] "seq"
           {| selectedTxs := Some ["A"; "H"];
              selectedTxsHashes := Some ["0xA"; "0xH"];
              invalidTxsHashes := Some ["0xB"];
              err := None |}
           (Demo.called ["A"; "H"]
              [("A", "seq"); ("B", "seq"); ("C", "seq"); ("H", "seq")])
           eq_refl eq_refl).
Defined.

(** The zero value of [Config]. *)
Lemma NewTxSelectorBase_unknown_sorter_type_witness :
  Demo.unset = TxSelector_Base {| Base_TxSorter := None |}
  ∧ ∀ (p : processor (list string)) pendingTxs a,
      SelectTxs Demo.unset p pendingTxs a = Panics.
Proof.
  apply (NewTxSelectorBase_unknown_sorter_type
           (@Build_Config _ _ Demo.sorters EmptyString)); discriminate.
Defined.

Lemma Base_SelectTxs_twice_witness :
  ∃ p2 : processor unit,
    SelectTxs (BP := Demo.oracle) Demo.byTime
      (Demo.called () [("A", "seq"); ("B", "seq"); ("C", "seq"); ("D", "seq")])
      [Demo.A; Demo.B; Demo.C; Demo.D] "seq" =
    Returns ({| selectedTxs := Some ["A"];
                selectedTxsHashes := Some ["0xA"];
                invalidTxsHashes := Some ["0xB"];
                err := None |}, p2).
Proof.
  apply (Base_SelectTxs_twice (BP := Demo.oracle) (λ s s' t a, eq_refl)
           Demo.byTimeBase (Demo.fresh ())
           [Demo.A; Demo.B; Demo.C; Demo.D] "seq").
  reflexivity.
Defined.

(** An error that reads as an invalid-transaction error and unwraps to the
    cumulative-gas sentinel is recorded as invalid. *)
Lemma Base_body_test_order_witness :
  errors_Is Demo.ErrGasBoth state_ErrInvalidCumulativeGas = true
  ∧ Base_body "seq" no_locals (Demo.fresh []) Demo.F =
      Next (Demo.built None None (Some ["0xF"])) (Demo.called [] [("F", "seq")]).
Proof.
  split; [reflexivity|].
  apply (Base_body_test_order (H := Demo.ethereum) "seq" no_locals (Demo.fresh []) Demo.F
           (Demo.failed Demo.ErrGasBoth) [] Demo.ErrGasBoth eq_refl eq_refl eq_refl).
  reflexivity.
Defined.

(** The invalid-signature error behind a wrapper with a text of its own is
    not looked up under the text it wraps: the call gives everything up. *)
Example SelectTxs_wrapped_invalid_aborts :
  SelectTxs Demo.byTime (Demo.fresh []) [Demo.A; Demo.B; Demo.G; Demo.D] "seq" =
    Returns (return_error Demo.ErrSigContext,
             Demo.called ["A"] [("A", "seq"); ("B", "seq"); ("G", "seq")]).
Proof. reflexivity. Qed.

(** With every transaction applied, the selection is the sorted list. *)
Example SelectTxs_all_applied :
  SelectTxs Demo.byTime (Demo.fresh []) [Demo.A; Demo.pending "H" 7] "seq" =
    Returns (Demo.returned (Some ["A"; "H"]) (Some ["0xA"; "0xH"]) None,
             Demo.called ["A"; "H"] [("A", "seq"); ("H", "seq")]).
Proof. reflexivity. Qed.


(** ** More runs on the small instance *)

Lemma Base_SelectTxs_success_selected_witness :
  Base_range "seq" no_locals (Demo.fresh []) [Demo.A] =
    Next (Demo.built (Some ["A"]) (Some ["0xA"]) None)
         (Demo.called ["A"] [("A", "seq")])
  ∧ SelectTxs Demo.byTime (Demo.fresh []) [Demo.A; Demo.B; Demo.C; Demo.D] "seq" =
      Base_finish (Base_range "seq"
        (Demo.built (Some ["A"]) (Some ["0xA"]) None)
        (Demo.called ["A"] [("A", "seq")]) [Demo.B; Demo.C; Demo.D]).
Proof.
  pose proof (Base_SelectTxs_success_selected Demo.byTimeBase (λ txs, txs) (Demo.fresh [])
           [Demo.A; Demo.B; Demo.C; Demo.D] "seq" [] Demo.A [Demo.B; Demo.C; Demo.D]
           no_locals (Demo.fresh []) Demo.succeeded ["A"]
           eq_refl eq_refl eq_refl eq_refl eq_refl) as (W1 & W2 & _).
  split; [exact W1 | exact W2].
Defined.

(** A processor that fails the second transaction without an error makes
    the call panic, after the first one has been applied. *)
Lemma Base_SelectTxs_panics_witness :
  SelectTxs (BP := Faulty.silent_on_B) Demo.byTime (Demo.fresh ())
    [Demo.A; Demo.B; Demo.C] "seq" = Panics.
Proof.
  apply (Base_SelectTxs_panics (BP := Faulty.silent_on_B) Demo.byTimeBase (Demo.fresh ())
           [Demo.A; Demo.B; Demo.C] "seq").
  right.
  exists (λ txs, txs), [Demo.A], Demo.B, [Demo.C],
         (Demo.built (Some ["A"]) (Some ["0xA"]) None),
         (Demo.called () [("A", "seq")]).
  repeat split; reflexivity.
Defined.

(** So does one that fails every transaction without an error, at the
    first transaction. *)
Example SelectTxs_silent_failure_panics :
  SelectTxs (BP := Faulty.silent) Demo.byTime (Demo.fresh ()) [Demo.A] "seq" = Panics.
Proof. reflexivity. Qed.

Lemma SelectTxs_returns_witness :
  ∃ out p',
    SelectTxs Demo.byTime (Demo.fresh []) [Demo.A; Demo.F; Demo.G; Demo.D] "seq" =
      Returns (out, p').
Proof.
  apply (SelectTxs_returns Demo.byTime (Demo.fresh [])
           [Demo.A; Demo.F; Demo.G; Demo.D] "seq").
  - intros b [= <-]. discriminate.
  - intros st t a'. unfold ProcessTransaction, Demo.batch.
    case_decide; [discriminate|]. unfold Demo.verdict.
    repeat case_decide; simpl; discriminate.
Defined.

Lemma Base_SelectTxs_error_only_from_abort_witness :
  InvalidTxErrors_at (Error Demo.ErrDatabase) = false
  ∧ errors_Is Demo.ErrDatabase state_ErrNonceIsBiggerThanAccountNonce = false
  ∧ errors_Is Demo.ErrDatabase state_ErrInvalidCumulativeGas = false.
Proof.
  pose proof (Base_SelectTxs_error_only_from_abort Demo.byTimeBase (λ txs, txs)
           (Demo.fresh []) [Demo.A; Demo.B; Demo.E; Demo.D] "seq"
           (return_error Demo.ErrDatabase)
           (Demo.called ["A"] [("A", "seq"); ("B", "seq"); ("E", "seq")])
           Demo.ErrDatabase eq_refl eq_refl eq_refl) as (_ & _ & _ & W1 & W2 & W3 & _).
  split; [exact W1|]. split; [exact W2 | exact W3].
Defined.

Lemma Base_SelectTxs_all_succeed_witness :
  ∃ out p',
    SelectTxs (BP := Demo.oracle) Demo.byTime (Demo.fresh ())
      [Demo.A; Demo.pending "H" 7] "seq" = Returns (out, p')
    ∧ elems (selectedTxs out) = ["A"; "H"]
    ∧ elems (selectedTxsHashes out) = ["0xA"; "0xH"]
    ∧ invalidTxsHashes out = None
    ∧ err out = None
    ∧ bp_calls p' = [("A", "seq"); ("H", "seq")].
Proof.
  apply (Base_SelectTxs_all_succeed (BP := Demo.oracle) Demo.byTimeBase (λ txs, txs)
           (Demo.fresh ()) [Demo.A; Demo.pending "H" 7] "seq" eq_refl).
  intros st tx Hin.
  apply elem_of_cons in Hin as [->|Hin]; [reflexivity|].
  apply elem_of_cons in Hin as [->|Hin]; [reflexivity|].
  by apply elem_of_nil in Hin.
Defined.

Lemma SelectTxs_nil_slices_witness :
  ((None : slice string) = None ↔ len (None : slice string) = 0)
  ∧ ((None : slice string) = None ↔ len (None : slice string) = 0)
  ∧ (Some ["0xB"] = None ↔ len (Some ["0xB"]) = 0).
Proof.
  exact (SelectTxs_nil_slices Demo.byTime (Demo.fresh []) [Demo.B; Demo.C] "seq"
           (Demo.returned None None (Some ["0xB"]))
           (Demo.called [] [("B", "seq"); ("C", "seq")]) eq_refl).
Defined.

Lemma Base_SelectTxs_calls_bounded_witness :
  ∃ k : nat,
    k ≤ 5
    ∧ [("A", "seq"); ("B", "seq"); ("C", "seq"); ("D", "seq")] =
        calls_for "seq" (take k [Demo.A; Demo.B; Demo.C; Demo.D; Demo.E])
    ∧ len (Some ["A"] : slice string) + len (Some ["0xB"] : slice string) ≤ k.
Proof.
  exact (Base_SelectTxs_calls_bounded Demo.byTimeBase (λ txs, txs) (Demo.fresh [])
           [Demo.A; Demo.B; Demo.C; Demo.D; Demo.E] "seq"
           (Demo.returned (Some ["A"]) (Some ["0xA"]) (Some ["0xB"]))
           (Demo.called ["A"] [("A", "seq"); ("B", "seq"); ("C", "seq"); ("D", "seq")])
           eq_refl eq_refl).
Defined.

Lemma Base_SelectTxs_selected_from_pending_witness :
  sublist ["A"] ["A"; "B"; "C"; "D"]
  ∧ ([Demo.A; Demo.B; Demo.C; Demo.D] ≡ₚ [Demo.A; Demo.B; Demo.C; Demo.D] →
     ["A"] ⊆+ ["A"; "B"; "C"; "D"] ∧ ["0xB"] ⊆+ ["0xA"; "0xB"; "0xC"; "0xD"]).
Proof.
  exact (Base_SelectTxs_selected_from_pending Demo.byTimeBase (λ txs, txs) (Demo.fresh [])
           [Demo.A; Demo.B; Demo.C; Demo.D] "seq"
           (Demo.returned (Some ["A"]) (Some ["0xA"]) (Some ["0xB"]))
           (Demo.called ["A"] [("A", "seq"); ("B", "seq"); ("C", "seq"); ("D", "seq")])
           eq_refl eq_refl).
Defined.

Lemma Base_SelectTxs_sound_witness :
  (∀ t : string, t ∈ ["A"] →
     ∃ st : list string, Failed (ProcessTransaction st t "seq").1 = false)
  ∧ (∀ h : string, h ∈ ["0xB"] →
       ∃ (st : list string) tx e,
         tx ∈ [Demo.A; Demo.B; Demo.C; Demo.D] ∧ h = hashHex (Transaction tx)
         ∧ Failed (ProcessTransaction st (Transaction tx) "seq").1 = true
         ∧ Err (ProcessTransaction st (Transaction tx) "seq").1 = Some e
         ∧ InvalidTxErrors_at (Error e) = true).
Proof.
  exact (Base_SelectTxs_sound Demo.byTimeBase (λ txs, txs) (Demo.fresh [])
           [Demo.A; Demo.B; Demo.C; Demo.D] "seq"
           (Demo.returned (Some ["A"]) (Some ["0xA"]) (Some ["0xB"]))
           (Demo.called ["A"] [("A", "seq"); ("B", "seq"); ("C", "seq"); ("D", "seq")])
           eq_refl eq_refl).
Defined.
